(** * The keysbuilder of the autoupdate service

    A shallow embedding of package [keysbuilder] (the resolver [Update] with
    [Keys], the constructors [FromJSON] and [ManyFromJSON]) and of the first
    delivery of a connection.

    Conventions of the embedding:
    - a Go [map[string]T] is a [gmap string T]; a [range] over a map
      enumerates its entries in an order Go leaves unspecified, so every
      [range] takes its enumeration from a schedule ([Sched]);
    - a Go [error] is a value of the inductive [error]; a function that
      returns [(T, error)] returns [error + T];
    - the [for] loop of [Update] is driven by a fuel argument counting its
      rounds; [None] means the fuel ran out before the loop was left;
    - the data provider is an external service: its answer depends on the
      state of the world at the time of the call, which is an explicit
      argument. *)

From stdpp Require Import gmap strings list fin_maps pretty.

Set Warnings "-register-all".

Local Open Scope Z_scope.
Local Open Scope string_scope.
Local Open Scope list_scope.

(** ** Errors *)

(** [reflect.Kind]. A [reflect.Type] is represented by its kind, which is all
    the package looks at. *)
Inductive Kind :=
| Invalid | Bool | Int | Int8 | Int16 | Int32 | Int64
| Uint | Uint8 | Uint16 | Uint32 | Uint64 | Uintptr
| Float32 | Float64 | Complex64 | Complex128
| Array | Chan | Func | Interface | Map | Ptr | Slice | String_ | Struct
| UnsafePointer.

Global Instance Kind_eq_dec : EqDecision Kind.
Proof. solve_decision. Defined.

(** [Kind.String()] *)
Definition Kind_String (k : Kind) : string :=
  match k with
  | Invalid => "invalid" | Bool => "bool" | Int => "int" | Int8 => "int8"
  | Int16 => "int16" | Int32 => "int32" | Int64 => "int64"
  | Uint => "uint" | Uint8 => "uint8" | Uint16 => "uint16"
  | Uint32 => "uint32" | Uint64 => "uint64" | Uintptr => "uintptr"
  | Float32 => "float32" | Float64 => "float64"
  | Complex64 => "complex64" | Complex128 => "complex128"
  | Array => "array" | Chan => "chan" | Func => "func"
  | Interface => "interface" | Map => "map" | Ptr => "ptr"
  | Slice => "slice" | String_ => "string" | Struct => "struct"
  | UnsafePointer => "unsafe.Pointer"
  end.

(** The error values that travel through the package: [io.EOF], the package's
    own [InvalidError], [JSONError] and [ValueError], the two error types of
    [encoding/json] the code inspects, [fmt.Errorf] with a wrapped error, and
    any other error ([errors_New]). *)
Inductive error :=
| io_EOF
| InvalidError (msg : string)
| JSONError (err : error)
| ValueError (key gotType : string) (expectType : Kind) (err : error)
| json_SyntaxError (msg : string)
| json_UnmarshalTypeError (Value : string) (Type_ : Kind) (Field : string)
| fmt_Errorf (context : string) (wrapped : error)
| errors_New (msg : string).

Global Instance error_eq_dec : EqDecision error.
Proof. solve_decision. Defined.

(** [errors.As(err, &target)] for a target of type [*json.UnmarshalTypeError]:
    the chain of [Unwrap] is followed through [fmt.Errorf("...%w", err)]. (The
    error types of the package are declared outside the sources at hand; no
    description returns one of them, and the chain is not followed through
    them.) *)
Fixpoint errors_As_UnmarshalTypeError (err : error) : option (string * Kind * string) :=
  match err with
  | json_UnmarshalTypeError v t f => Some (v, t, f)
  | fmt_Errorf _ e => errors_As_UnmarshalTypeError e
  | _ => None
  end.

(** What [Update] returns for an error of the description of [key]: a
    [ValueError] when the error is a type error of the decoder, the error
    itself otherwise. *)
Definition report (key : string) (err : error) : error :=
  match errors_As_UnmarshalTypeError err with
  | Some (got, expect, _) => ValueError key got expect err
  | None => err
  end.

Definition is_ValueError (err : error) : bool :=
  match err with ValueError _ _ _ _ => true | _ => false end.

(** ** Values *)

(** A JSON document. Integer literals carry their value, other number
    literals their text. *)
Inductive json :=
| JNull
| JBool (b : bool)
| JNumber (n : Z)
| JReal (lit : string)
| JString (s : string)
| JArray (items : list json)
| JObject (members : list (string * json)).

(** The content of a non-nil [json.RawMessage]: a JSON document, or bytes
    that are no JSON document. *)
Inductive document :=
| Valid (j : json)
| Malformed (bytes : string).

(** [json.RawMessage]; [None] is the nil slice. *)
Abbreviation RawMessage := (option document).

(** What [RestrictedData] returns: [map[string]json.RawMessage]. *)
Abbreviation Data := (gmap string RawMessage).

(** [data[key]], the nil slice when the key is not in the map. *)
Definition index (data : Data) (key : string) : RawMessage :=
  default None (data !! key).

(** ** Keys *)

Definition keySep : string := "/".

Definition buildGenericKey (collectionID field : string) : string :=
  collectionID +:+ keySep +:+ field.

(** [strconv.Itoa] is [pretty] on [Z]. *)
Definition buildCollectionID (collection : string) (id : Z) : string :=
  collection +:+ keySep +:+ pretty id.

(** The name [encoding/json] gives the JSON type of a value in the [Value]
    field of an [UnmarshalTypeError]. *)
Definition json_kind (j : json) : string :=
  match j with
  | JNull => "null"
  | JBool _ => "bool"
  | JNumber _ | JReal _ => "number"
  | JString _ => "string"
  | JArray _ => "array"
  | JObject _ => "object"
  end.

(** ** The resolver *)

(** A schedule fixes, for every round of [Update], the order in which
    [range process] and [range processed] enumerate the entries of the two
    maps. Go promises nothing about that order beyond each entry being
    visited once. *)
Record Sched (Desc : Type) := MkSched {
  range_process : nat → list (string * option Desc) → list (string * option Desc);
  range_processed : nat → list (string * Desc) → list (string * Desc)
}.
Arguments MkSched {Desc} _ _.
Arguments range_process {Desc} _ _ _.
Arguments range_processed {Desc} _ _ _.

Definition valid_sched {Desc} (s : Sched Desc) : Prop :=
  (∀ n l, range_process s n l ≡ₚ l) ∧ (∀ n l, range_processed s n l ≡ₚ l).

(** The enumeration that follows the canonical listing of the map. *)
Definition canonical {Desc} : Sched Desc := MkSched (λ _ l, l) (λ _ l, l).

(** The same listing read backwards. *)
Definition backwards {Desc} : Sched Desc := MkSched (λ _ l, reverse l) (λ _ l, reverse l).

(** How [Update] leaves its loop. *)
Inductive outcome :=
| Finished (keys : list string)
| Failed (err : error).

(** How one round of the loop ends: at the [break], at a [return] with an
    error, or at the end of the loop body. *)
Inductive step (Desc : Type) :=
| Done (ks : list string)
| Abort (err : error) (needed : list string)
| Continue (process : gmap string (option Desc)) (ks : list string) (needed : list string).
Arguments Done {Desc} _.
Arguments Abort {Desc} _ _.
Arguments Continue {Desc} _ _ _.

(** The entries that carry a description, in the order of the list. *)
Definition relations {Desc} (entries : list (string * option Desc)) : list (string * Desc) :=
  omap (λ e, pair e.1 <$> e.2) entries.

(** The pairs put into a map, one after the other: a later pair replaces an
    earlier one with the same key. *)
Definition insert_all {V} (l : list (string * V)) (m : gmap string V) : gmap string V :=
  foldl (λ m kv, <[kv.1 := kv.2]> m) m l.

Section Resolver.
(** The state of the world the data provider reads. *)
Context {World : Type}.
(** The implementations of interface [fieldDescription]; the nil interface
    value, which marks a plain field, is [None]. *)
Context {Desc : Type}.
(** The type of a request body. *)
Context {body : Type}.

(** [description.keys(key, value, data)]: parses the value of [key] and puts
    the keys of the next generation into [data]. *)
Variable desc_keys :
  Desc → string → document → gmap string (option Desc) → error + gmap string (option Desc).
(** [body.keys(process)]: puts the top-level keys of the body into [process]. *)
Variable top_keys : body → gmap string (option Desc) → gmap string (option Desc).

(** [RestrictedData(ctx, uid, keys...)] *)
Definition DataProvider : Type := World → Z → list string → error + Data.

Record Builder := MkBuilder {
  dataProvider : DataProvider;
  uid : Z;
  bodies : list body;
  keys : list string
}.

Definition set_keys (ks : list string) (b : Builder) : Builder :=
  MkBuilder (dataProvider b) (uid b) (bodies b) ks.

(** [Keys] returns a copy of the key list. *)
Definition Keys (b : Builder) : list string := keys b.

(** The process map [Update] starts from: all keys of all bodies. *)
Definition seed (bs : list body) : gmap string (option Desc) :=
  foldl (λ process b, top_keys b process) ∅ bs.

(** The body of the first [range process] loop, on the triple
    ([b.keys], [needed], [processed]). *)
Definition collect (st : list string * list string * gmap string Desc)
    (entry : string * option Desc) : list string * list string * gmap string Desc :=
  let '(ks, needed, processed) := st in
  match entry.2 with
  | None => (ks ++ [entry.1], needed, processed)
  | Some description => (ks ++ [entry.1], needed ++ [entry.1], <[entry.1 := description]> processed)
  end.

(** The [range processed] loop: a key without a value is skipped, the
    description of any other key puts the next generation into [process]. *)
Fixpoint expand (data : Data) (entries : list (string * Desc))
    (process : gmap string (option Desc)) : error + gmap string (option Desc) :=
  match entries with
  | [] => inr process
  | (key, description) :: rest =>
      match index data key with
      | None => expand data rest process
      | Some value =>
          match desc_keys description key value process with
          | inl err => inl (report key err)
          | inr process' => expand data rest process'
          end
      end
  end.

(** The entries [range process] visits in round [n]. *)
Definition visited (s : Sched Desc) (n : nat) (process : gmap string (option Desc))
    : list (string * option Desc) :=
  range_process s n (map_to_list process).

(** The entries [range processed] visits in round [n]: [processed] holds the
    visited entries that carry a description. *)
Definition entered (s : Sched Desc) (n : nat) (process : gmap string (option Desc))
    : list (string * Desc) :=
  range_processed s n (map_to_list (insert_all (relations (visited s n process)) ∅)).

(** One round of the loop of [Update], with [process] and [b.keys] as they
    are at its start ([needed] and [processed] are empty then). *)
Definition round (s : Sched Desc) (w : World) (dp : DataProvider) (u : Z) (n : nat)
    (process : gmap string (option Desc)) (ks : list string) : step Desc :=
  let '(ks', needed, processed) :=
    foldl collect (ks, [], ∅) (range_process s n (map_to_list process)) in
  match needed with
  | [] => Done ks'
  | _ :: _ =>
      match dp w u needed with
      | inl err => Abort (fmt_Errorf "load needed keys" err) needed
      | inr data =>
          match expand data (range_processed s n (map_to_list processed)) ∅ with
          | inl err => Abort err needed
          | inr process' => Continue process' ks' needed
          end
      end
  end.

(** The loop of [Update], from the start of round [n]. [calls] records the
    key lists [RestrictedData] was called with. *)
Fixpoint resolve (fuel : nat) (s : Sched Desc) (w : World) (dp : DataProvider) (u : Z)
    (n : nat) (process : gmap string (option Desc)) (ks : list string)
    (calls : list (list string)) : option (outcome * list (list string)) :=
  match fuel with
  | O => None
  | S fuel' =>
      match round s w dp u n process ks with
      | Done ks' => Some (Finished ks', calls)
      | Abort err needed => Some (Failed err, calls ++ [needed])
      | Continue process' ks' needed =>
          resolve fuel' s w dp u (S n) process' ks' (calls ++ [needed])
      end
  end.

(** [Update]: returns the builder after the call, the error, and the calls
    made to the data provider. The deferred function empties the key list
    when an error is returned. *)
Definition Update (fuel : nat) (s : Sched Desc) (w : World) (b : Builder)
    : option (Builder * option error * list (list string)) :=
  match resolve fuel s w (dataProvider b) (uid b) 0 (seed (bodies b)) [] [] with
  | None => None
  | Some (Finished ks, calls) => Some (set_keys ks b, None, calls)
  | Some (Failed err, calls) => Some (set_keys [] b, Some err, calls)
  end.

(** [newBuilder]: a builder for the bodies, updated once. *)
Definition newBuilder (fuel : nat) (s : Sched Desc) (w : World) (dp : DataProvider) (u : Z)
    (bodys : list body) : option (error + Builder) :=
  match Update fuel s w (MkBuilder dp u bodys []) with
  | None => None
  | Some (_, Some err, _) => Some (inl (fmt_Errorf "build keys for the first time" err))
  | Some (b, None, _) => Some (inr b)
  end.

(** The states in which the loop of [Update] starts a round: the number of
    the round, [process], [b.keys] and the calls made so far. *)
Inductive reaches (s : Sched Desc) (w : World) (b : Builder)
    : nat → gmap string (option Desc) → list string → list (list string) → Prop :=
| reaches_first : reaches s w b 0 (seed (bodies b)) [] []
| reaches_next n process ks calls process' ks' needed :
    reaches s w b n process ks calls →
    round s w (dataProvider b) (uid b) n process ks = Continue process' ks' needed →
    reaches s w b (S n) process' ks' (calls ++ [needed]).

(** ** Request parsing *)

(** What an [io.Reader] holds: nothing (but white space), or bytes that
    start with a JSON document or with something else. *)
Definition Reader : Type := option document.

(** How one body is decoded from a JSON document (by [encoding/json] and
    the [UnmarshalJSON] methods of the request types). *)
Variable unmarshal_body : json → error + body.

Fixpoint unmarshal_bodies (items : list json) : error + list body :=
  match items with
  | [] => inr []
  | j :: rest =>
      match unmarshal_body j with
      | inl err => inl err
      | inr b =>
          match unmarshal_bodies rest with
          | inl err => inl err
          | inr bs => inr (b :: bs)
          end
      end
  end.

(** [json.NewDecoder(r).Decode(&b)] for [b] of type [body]. *)
Definition Decode_body (r : Reader) : error + body :=
  match r with
  | None => inl io_EOF
  | Some (Malformed _) => inl (json_SyntaxError "invalid JSON")
  | Some (Valid j) => unmarshal_body j
  end.

(** [json.NewDecoder(r).Decode(&bs)] for [bs] of type [[]body]. *)
Definition Decode_bodies (r : Reader) : error + list body :=
  match r with
  | None => inl io_EOF
  | Some (Malformed _) => inl (json_SyntaxError "invalid JSON")
  | Some (Valid JNull) => inr []
  | Some (Valid (JArray items)) => unmarshal_bodies items
  | Some (Valid j) => inl (json_UnmarshalTypeError (json_kind j) Slice "")
  end.

Definition FromJSON (fuel : nat) (s : Sched Desc) (w : World) (r : Reader)
    (dp : DataProvider) (u : Z) : option (error + Builder) :=
  match Decode_body r with
  | inl err =>
      match err with
      | io_EOF => Some (inl (InvalidError "No data"))
      | InvalidError _ => Some (inl err)
      | _ => Some (inl (JSONError err))
      end
  | inr b =>
      match newBuilder fuel s w dp u [b] with
      | None => None
      | Some (inl err) => Some (inl (fmt_Errorf "build keys" err))
      | Some (inr kb) => Some (inr kb)
      end
  end.

Definition ManyFromJSON (fuel : nat) (s : Sched Desc) (w : World) (r : Reader)
    (dp : DataProvider) (u : Z) : option (error + Builder) :=
  match Decode_bodies r with
  | inl err =>
      match err with
      | io_EOF => Some (inl (InvalidError "No data"))
      | InvalidError _ => Some (inl err)
      | json_SyntaxError _ => Some (inl (JSONError err))
      | json_UnmarshalTypeError value type field =>
          let expectType :=
            match type with
            | Struct => "object"
            | Slice => "list"
            | Int => "number"
            | _ => Kind_String type
            end in
          Some (inl (InvalidError
            ("wrong type at field `" +:+ field +:+ "`. Got " +:+ value
             +:+ ", expected " +:+ expectType)))
      | _ => Some (inl (fmt_Errorf "decode keysrequest" err))
      end
  | inr bs =>
      match bs with
      | [] => Some (inl (InvalidError "No data"))
      | _ :: _ =>
          match newBuilder fuel s w dp u bs with
          | None => None
          | Some (inl err) => Some (inl (fmt_Errorf "build keys" err))
          | Some (inr kb) => Some (inr kb)
          end
      end
  end.
End Resolver.

(** ** Decoding fetched values *)

(** [json.Unmarshal(value, &s)] for [s] of type [string]: [null] leaves the
    zero value, any other document that is no string is a type error. *)
Definition Unmarshal_string (value : document) : error + string :=
  match value with
  | Malformed _ => inl (json_SyntaxError "invalid JSON")
  | Valid JNull => inr ""
  | Valid (JString s) => inr s
  | Valid j => inl (json_UnmarshalTypeError (json_kind j) String_ "")
  end.

(** An element of a list decoded into an [int] (64 bits wide). *)
Definition Unmarshal_int (j : json) : error + Z :=
  match j with
  | JNull => inr 0
  | JNumber n =>
      if bool_decide (- 2 ^ 63 ≤ n < 2 ^ 63) then inr n
      else inl (json_UnmarshalTypeError ("number " +:+ pretty n) Int "")
  | JReal lit => inl (json_UnmarshalTypeError ("number " +:+ lit) Int "")
  | _ => inl (json_UnmarshalTypeError (json_kind j) Int "")
  end.

Fixpoint Unmarshal_elements (items : list json) : error + list Z :=
  match items with
  | [] => inr []
  | j :: rest =>
      match Unmarshal_int j with
      | inl err => inl err
      | inr id =>
          match Unmarshal_elements rest with
          | inl err => inl err
          | inr ids => inr (id :: ids)
          end
      end
  end.

(** [json.Unmarshal(value, &ids)] for [ids] of type [[]int]. *)
Definition Unmarshal_ints (value : document) : error + list Z :=
  match value with
  | Malformed _ => inl (json_SyntaxError "invalid JSON")
  | Valid JNull => inr []
  | Valid (JArray items) => Unmarshal_elements items
  | Valid j => inl (json_UnmarshalTypeError (json_kind j) Slice "")
  end.

(** Splits a string at its first [keySep]. *)
Fixpoint cut (s : string) : option (string * string) :=
  match s with
  | EmptyString => None
  | String c rest =>
      if decide (String c EmptyString = keySep) then Some (EmptyString, rest)
      else prod_map (String c) id <$> cut rest
  end.

(** ** Request bodies and field descriptions *)

(** Modelled from the spec: the declaration of the implementations of
    [fieldDescription] is not among the sources. A description is a
    single-relation or a multi-relation; each names its target collection and
    carries the nested fields, a plain field having no description (nil). *)
Inductive description :=
| relationField (collection : string) (fields : list (string * option description))
| relationListField (collection : string) (fields : list (string * option description)).

Abbreviation fieldDescription := (option description).
Abbreviation fieldsMap := (list (string * option description)).

(** Modelled from the spec: the declaration of [body] is not among the
    sources. A body maps collection-ids to field descriptions; the pairs are
    listed in the order they are visited. *)
Definition body : Type := list (string * fieldsMap).

(** Modelled from the spec: the method that puts the fields of one object
    into the map is not among the sources. For each field, [collectionID/field]
    is set to the field's description. *)
Definition build (collectionID : string) (fields : fieldsMap)
    (data : gmap string fieldDescription) : gmap string fieldDescription :=
  foldl (λ m fd, <[buildGenericKey collectionID fd.1 := fd.2]> m) data fields.

(** Modelled from the spec: [body.keys] is not among the sources. Every
    (collection-id, field) pair of the body is put into [process]. *)
Definition body_keys (b : body) (process : gmap string fieldDescription)
    : gmap string fieldDescription :=
  foldl (λ m cf, build cf.1 cf.2 m) process b.

(** Modelled from the spec: the [keys] methods of the descriptions are not
    among the sources. A single-relation parses the value as a key string
    [collection/id], fails when its collection is not the target collection,
    and puts the nested fields of that object into [data]; a multi-relation
    parses the value as a list of ids and puts the nested fields of each
    object of the target collection into [data]. *)
Definition description_keys (d : description) (key : string) (value : document)
    (data : gmap string fieldDescription) : error + gmap string fieldDescription :=
  match d with
  | relationField collection fields =>
      match Unmarshal_string value with
      | inl err => inl err
      | inr collectionID =>
          match cut collectionID with
          | Some (c, _) =>
              if decide (c = collection) then inr (build collectionID fields data)
              else inl (errors_New "wrong collection")
          | None => inl (errors_New "wrong collection")
          end
      end
  | relationListField collection fields =>
      match Unmarshal_ints value with
      | inl err => inl err
      | inr ids =>
          inr (foldl (λ m id, build (buildCollectionID collection id) fields m) data ids)
      end
  end.

(** The nesting depth of a description, which bounds the rounds of [Update]. *)
Fixpoint depth (d : description) : nat :=
  let fix fields_depth (fs : list (string * option description)) : nat :=
    match fs with
    | [] => O
    | (_, None) :: rest => fields_depth rest
    | (_, Some d') :: rest => Nat.max (depth d') (fields_depth rest)
    end in
  match d with
  | relationField _ fs => S (fields_depth fs)
  | relationListField _ fs => S (fields_depth fs)
  end.

Definition fd_depth (fd : fieldDescription) : nat :=
  match fd with None => O | Some d => depth d end.

Definition fields_depth (fs : fieldsMap) : nat :=
  foldr (λ fd n, Nat.max (fd_depth fd.2) n) O fs.

Definition body_depth (b : body) : nat :=
  foldr (λ cf n, Nat.max (fields_depth cf.2) n) O b.

(** Enough fuel for [Update] on these bodies. *)
Definition rounds (bs : list body) : nat :=
  S (foldr (λ b n, Nat.max (body_depth b) n) O bs).

(** The keys [build] sets for one object, with their descriptions. *)
Definition object_keys (collectionID : string) (fields : fieldsMap)
    : list (string * fieldDescription) :=
  prod_map (buildGenericKey collectionID) id <$> fields.

(** The pairs [description_keys] puts into the map for a value. *)
Definition children (d : description) (value : document)
    : error + list (string * fieldDescription) :=
  match d with
  | relationField collection fields =>
      match Unmarshal_string value with
      | inl err => inl err
      | inr collectionID =>
          match cut collectionID with
          | Some (c, _) =>
              if decide (c = collection) then inr (object_keys collectionID fields)
              else inl (errors_New "wrong collection")
          | None => inl (errors_New "wrong collection")
          end
      end
  | relationListField collection fields =>
      match Unmarshal_ints value with
      | inl err => inl err
      | inr ids => inr (ids ≫= λ id, object_keys (buildCollectionID collection id) fields)
      end
  end.

(** The pairs one round produces from the entries whose value is present and
    accepted. *)
Definition offspring (data : Data) (entries : list (string * description))
    : list (string * fieldDescription) :=
  entries ≫= λ e,
    match index data e.1 with
    | None => []
    | Some value => match children e.2 value with inl _ => [] | inr l => l end
    end.

(** The entries whose value is present and rejected, with the error. *)
Definition failures (data : Data) (entries : list (string * description))
    : list (string * error) :=
  omap (λ e,
    match index data e.1 with
    | None => None
    | Some value => match children e.2 value with inl err => Some (e.1, err) | inr _ => None end
    end) entries.

(** No key stands with two different values. *)
Definition consistent {V} (l : list (string * V)) : Prop :=
  ∀ k v1 v2, (k, v1) ∈ l → (k, v2) ∈ l → v1 = v2.

(** In each of the first [fuel] rounds (followed along the canonical
    enumeration) the relation keys of the round agree on the description of
    every key they produce. *)
Fixpoint conflict_free {World} (fuel : nat) (w : World) (dp : DataProvider) (u : Z)
    (process : gmap string fieldDescription) : Prop :=
  match fuel with
  | O => True
  | S fuel' =>
      let entries := relations (map_to_list process) in
      match dp w u entries.*1 with
      | inl _ => True
      | inr data =>
          consistent (offspring data entries) ∧
          match round description_keys canonical w dp u 0 process [] with
          | Continue process' _ _ => conflict_free fuel' w dp u process'
          | _ => True
          end
      end
  end.

(** In round [n] of [Update] the loop over [processed] comes to the entry of
    [key], with description [d] and the fetched value [value], no entry
    before it having been rejected. *)
Definition comes_to {World} (s : Sched description) (w : World) (b : Builder)
    (n : nat) (key : string) (d : description) (value : document) : Prop :=
  ∃ process ks calls data before after,
    reaches description_keys body_keys s w b n process ks calls ∧
    dataProvider b w (uid b) (relations (visited s n process)).*1 = inr data ∧
    entered s n process = before ++ (key, d) :: after ∧
    failures data before = [] ∧
    index data key = Some value.

(** The provider's answer does not depend on the order of the keys. *)
Definition order_blind {World} (dp : @DataProvider World) (w : World) (u : Z) : Prop :=
  ∀ l l', l ≡ₚ l' → dp w u l = dp w u l'.

(** A check that implies [conflict_free]: in each round no key is produced
    twice. *)
Fixpoint distinct_offspring {World} (fuel : nat) (w : World) (dp : DataProvider) (u : Z)
    (process : gmap string fieldDescription) : bool :=
  match fuel with
  | O => true
  | S fuel' =>
      let entries := relations (map_to_list process) in
      match dp w u entries.*1 with
      | inl _ => true
      | inr data =>
          bool_decide (NoDup (offspring data entries).*1) &&
          match round description_keys canonical w dp u 0 process [] with
          | Continue process' _ _ => distinct_offspring fuel' w dp u process'
          | _ => true
          end
      end
  end.

(** The value does not have the JSON type of the relation: decoding it into
    the Go type of the relation (a string, a list of ints) is a type error,
    with the type that was got and the type that was expected. *)
Definition wrong_shape (d : description) (value : document) : option (string * Kind) :=
  let type_error {A} (r : error + A) : option (string * Kind) :=
    match r with
    | inl (json_UnmarshalTypeError got expect _) => Some (got, expect)
    | _ => None
    end in
  match d with
  | relationField _ _ => type_error (Unmarshal_string value)
  | relationListField _ _ => type_error (Unmarshal_ints value)
  end.

(** The top-level keys of a request: [collectionID/field] for every
    (collection-id, field) pair of every body. *)
Definition top_level (bs : list body) (k : string) : Prop :=
  ∃ bd collectionID fields f d,
    bd ∈ bs ∧ (collectionID, fields) ∈ bd ∧ (f, d) ∈ fields ∧
    k = buildGenericKey collectionID f.

(** The request has plain fields only. *)
Definition plain (bs : list body) : Prop :=
  ∀ bd collectionID fields f d,
    bd ∈ bs → (collectionID, fields) ∈ bd → (f, d) ∈ fields → d = None.

(** All pairs [body_keys] puts into the map for the bodies, in order. *)
Definition top_pairs (bs : list body) : list (string * fieldDescription) :=
  bs ≫= λ bd, bd ≫= λ cf, object_keys cf.1 cf.2.

(** ** The wire format of a request *)

(** The member of a JSON object with a given name; of two members with the
    same name the later one counts. *)
Definition member (name : string) (members : list (string * json)) : option json :=
  (list_to_map (reverse members) : gmap string json) !! name.

Section Fields.
Variable unmarshal_field : json → error + fieldDescription.

Fixpoint unmarshal_fields (members : list (string * json)) : error + fieldsMap :=
  match members with
  | [] => inr []
  | (name, j) :: rest =>
      match unmarshal_field j with
      | inl err => inl err
      | inr d =>
          match unmarshal_fields rest with
          | inl err => inl err
          | inr fs => inr ((name, d) :: fs)
          end
      end
  end.
End Fields.

(** Modelled from the spec: the decoding of a field description is not among
    the sources. A field description is the plain field marker [null], or an
    object with a ["type"] (["relation"] or ["relation-list"]), a target
    ["collection"] and a non-empty object of nested ["fields"]. [fuel] bounds
    the nesting. *)
Fixpoint unmarshal_description (fuel : nat) (j : json) : error + fieldDescription :=
  match fuel with
  | O => inl (errors_New "exceeded max depth")
  | S fuel' =>
      match j with
      | JNull => inr None
      | JObject members =>
          match member "type" members with
          | None => inl (InvalidError "no type")
          | Some (JString type) =>
              match member "collection" members with
              | None => inl (InvalidError "no collection")
              | Some (JString collection) =>
                  match member "fields" members with
                  | None => inl (InvalidError "no fields")
                  | Some (JObject nested) =>
                      match unmarshal_fields (unmarshal_description fuel') nested with
                      | inl err => inl err
                      | inr [] => inl (InvalidError "no fields")
                      | inr fields =>
                          if decide (type = "relation") then
                            inr (Some (relationField collection fields))
                          else if decide (type = "relation-list") then
                            inr (Some (relationListField collection fields))
                          else inl (InvalidError "unknown type")
                      end
                  | Some other =>
                      inl (json_UnmarshalTypeError (json_kind other) Struct "fields")
                  end
              | Some other =>
                  inl (json_UnmarshalTypeError (json_kind other) String_ "collection")
              end
          | Some other => inl (json_UnmarshalTypeError (json_kind other) String_ "type")
          end
      | _ => inl (json_UnmarshalTypeError (json_kind j) Struct "")
      end
  end.

(** The nesting depth of a document. *)
Fixpoint json_depth (j : json) : nat :=
  match j with
  | JArray items => S (foldr (λ x n, Nat.max (json_depth x) n) O items)
  | JObject members =>
      S ((fix go (ms : list (string * json)) : nat :=
            match ms with
            | [] => O
            | (_, x) :: rest => Nat.max (json_depth x) (go rest)
            end) members)
  | _ => 1%nat
  end.

(** Modelled from the spec: the [UnmarshalJSON] of [body] is not among the
    sources. A body is an object that maps each ["collection/id"] to an object
    of field descriptions. *)
Definition body_UnmarshalJSON (j : json) : error + body :=
  match j with
  | JObject members =>
      (fix go (ms : list (string * json)) : error + body :=
         match ms with
         | [] => inr []
         | (collectionID, JObject fields) :: rest =>
             match unmarshal_fields (unmarshal_description (json_depth j)) fields with
             | inl err => inl err
             | inr fs =>
                 match go rest with
                 | inl err => inl err
                 | inr b => inr ((collectionID, fs) :: b)
                 end
             end
         | (collectionID, other) :: _ =>
             inl (json_UnmarshalTypeError (json_kind other) Struct collectionID)
         end) members
  | _ => inl (json_UnmarshalTypeError (json_kind j) Struct "")
  end.

(** ** The first delivery of a connection *)

Section Connection.
Context {World : Type}.
(** The keysbuilder of a connection, with its method [Keys]. *)
Context {KeysBuilder : Type}.
Variable builder_Keys : KeysBuilder → list string.
(** The service's loader of restricted values. *)
Variable RestrictedData : World → Z → list string → error + Data.

(** Modelled from the spec: the connection is not among the sources. Its
    state is the user id, the keysbuilder, the cursor, the last delivered
    value of each key, and the flag that is true until the first [Next]
    has returned successfully. *)
Record Connection := MkConnection {
  conn_uid : Z;
  builder : KeysBuilder;
  cursor : Z;
  last : gmap string document;
  firstCall : bool
}.

(** Modelled from the spec: what the first call does with one key. A key
    with a value goes into the returned map and into [last], a key without
    one into neither. *)
Definition deliver (data : Data) (st : gmap string document * gmap string document)
    (key : string) : gmap string document * gmap string document :=
  match index data key with
  | None => st
  | Some value => (<[key := value]> st.1, <[key := value]> st.2)
  end.

(** The keys of the key set that have a value, with it. *)
Definition visible (data : Data) (ks : list string) : list (string * document) :=
  omap (λ k, pair k <$> index data k) ks.

(** The later calls of [Next], which wait for the topic. *)
Variable laterNext :
  World → Connection → error + (gmap string (option document) * Connection).

(** Modelled from the spec: [Next] is not among the sources. The first call
    fetches the key set from the builder, loads the restricted values of
    all keys, populates [last] with what is delivered and returns the
    visible keys; an error leaves the connection as it was. A value in the
    returned map is [Some] bytes, or [None] for null. *)
Definition Next (w : World) (c : Connection)
    : error + (gmap string (option document) * Connection) :=
  if firstCall c then
    match RestrictedData w (conn_uid c) (builder_Keys (builder c)) with
    | inl err => inl err
    | inr data =>
        let st := foldl (deliver data) (∅, last c) (builder_Keys (builder c)) in
        inr (Some <$> st.1, MkConnection (conn_uid c) (builder c) (cursor c) st.2 false)
    end
  else laterNext w c.
End Connection.

(** ** Scenarios *)

(** A data provider that answers from a fixed store: every requested key with
    its value, nil for a key the store does not have. *)
Definition snapshot (store : Data) : @DataProvider unit :=
  λ _ _ ks, inr (list_to_map ((λ k, (k, index store k)) <$> ks)).

(** A data provider that is down. *)
Definition unreachable : @DataProvider unit :=
  λ _ _ _, inl (errors_New "connection refused").

(** The update of the scenarios: the descriptions and bodies above. *)
Abbreviation update := (Update (World := unit) description_keys body_keys).

(** A motion asked for by itself and reached again as the successor of
    another motion. *)
Definition successor : body :=
  [("motion/1", [("title", None)]);
   ("motion/2", [("successor", Some (relationField "motion" [("title", None)]))])].

Definition successor_store : Data :=
  {[ "motion/2/successor" := Some (Valid (JString "motion/1"));
     "motion/1/title" := Some (Valid (JString "t")) ]}.

(** Two relation lists that reach the same object and ask for different
    things of its field [f]. *)
Definition crossing : body :=
  [("a/1", [("x_ids", Some (relationListField "c" [("f", None)]));
            ("y_ids", Some (relationListField "c"
               [("f", Some (relationListField "d" [("g", None)]))]))])].

Definition crossing_store : Data :=
  {[ "a/1/x_ids" := Some (Valid (JArray [JNumber 1]));
     "a/1/y_ids" := Some (Valid (JArray [JNumber 1]));
     "c/1/f" := Some (Valid (JArray [JNumber 7])) ]}.

(** Two relation lists whose values are numbers. *)
Definition broken_store : Data :=
  {[ "a/1/x_ids" := Some (Valid (JNumber 42));
     "a/1/y_ids" := Some (Valid (JNumber 43)) ]}.

(** Plain fields only. *)
Definition names : list body :=
  [[("user/1", [("name", None)])]; [("user/2", [("name", None)]); ("user/1", [("name", None)])]].

(** The builders of the scenarios. *)
Definition successor_builder : Builder :=
  MkBuilder (snapshot successor_store) 1 [successor] [].

Definition crossing_builder : Builder :=
  MkBuilder (snapshot crossing_store) 1 [crossing] [].

Definition broken_builder : Builder :=
  MkBuilder (snapshot broken_store) 1 [crossing] [].

Definition down_builder : Builder :=
  MkBuilder unreachable 1 [crossing] ["a/1/x_ids"; "a/1/y_ids"; "c/1/f"].

Definition names_builder : Builder := MkBuilder unreachable 0 names [].

(** The connection of the first delivery: its keysbuilder is the list of its
    keys, the restricted values come from a store. One key has a value, the
    other has none. *)
Definition fresh_connection : @Connection (list string) :=
  MkConnection 1 ["user/1/name"; "doesnot/1/exist"] 0 ∅ true.

Definition exist_store : Data := {[ "user/1/name" := Some (Malformed "exist") ]}.

(** What the first call returns for it, and the connection after the call. *)
Definition exist_delivery : gmap string RawMessage :=
  {[ "user/1/name" := Some (Malformed "exist") ]}.

Definition delivered_connection : @Connection (list string) :=
  MkConnection 1 ["user/1/name"; "doesnot/1/exist"] 0
    {[ "user/1/name" := Malformed "exist" ]} false.

(** The later calls are of no concern here. *)
Definition closed_topic : unit → @Connection (list string) →
    error + (gmap string RawMessage * @Connection (list string)) :=
  λ _ _, inl (errors_New "closed").

(** ** Errors seen by the callers of the constructors *)

(** [errors.As(err, &target)] for a target of type [ValueError], through the
    wrappers made by [fmt.Errorf("...%w", err)]. *)
Fixpoint errors_As_ValueError (err : error) : option (string * string * Kind * error) :=
  match err with
  | ValueError key got expect cause => Some (key, got, expect, cause)
  | fmt_Errorf _ e => errors_As_ValueError e
  | _ => None
  end.

(** ** The mock restricter (package test) *)

(** [strings.HasPrefix(s, prefix)] *)
Definition HasPrefix (s prefix : string) : bool := String.prefix prefix s.

(** [strings.HasSuffix(s, suffix)]:
    [len(s) >= len(suffix) && s[len(s)-len(suffix):] == suffix]. *)
Definition HasSuffix (s suffix : string) : bool :=
  (String.length suffix <=? String.length s)%nat &&
  String.eqb
    (String.substring (String.length s - String.length suffix) (String.length suffix) s)
    suffix.

(** [MockRestricter]; a nil map [Data] reads like the empty map. *)
Record MockRestricter := MkMockRestricter {
  restricter_Data : gmap string string
}.

(** The loop of [Restrict] over the keys, with the map [out] built so far. *)
Fixpoint Restrict_loop (r : MockRestricter) (keys : list string) (out : gmap string string)
    : error + gmap string string :=
  match keys with
  | [] => inr out
  | key :: rest =>
      match restricter_Data r !! key with
      | Some v => Restrict_loop r rest (<[key := v]> out)
      | None =>
          if HasPrefix key "error" then inl (errors_New "Restricter got an error")
          else if HasSuffix key "_id" then Restrict_loop r rest (<[key := "1"]> out)
          else if HasSuffix key "_ids" then Restrict_loop r rest (<[key := "[1,2]"]> out)
          else Restrict_loop r rest (<[key := "some value"]> out)
      end
  end.

(** [Restrict(ctx, uid, keys)] *)
Definition Restrict (r : MockRestricter) (uid : Z) (keys : list string)
    : error + gmap string string :=
  Restrict_loop r keys ∅.

(** The value [Restrict] gives a key, as its comment lists them: the value
    in [Data], else ["1"] for a key that ends with ["_id"], ["[1,2]"] for one
    that ends with ["_ids"], ["some value"] for any other. *)
Definition mock_value (r : MockRestricter) (key : string) : string :=
  match restricter_Data r !! key with
  | Some v => v
  | None =>
      if HasSuffix key "_id" then "1"
      else if HasSuffix key "_ids" then "[1,2]"
      else "some value"
  end.

(** The keys at which [Restrict] throws: not in [Data], starting with
    ["error"]. *)
Definition mock_throws (r : MockRestricter) (key : string) : Prop :=
  restricter_Data r !! key = None ∧ HasPrefix key "error" = true.

(** ** The command (package main) *)

Definition generalCertName : string := "cert.pem".
Definition generalKeyName : string := "key.pem".
Definition specialCertName : string := "autoupdate.pem".
Definition specialKeyName : string := "autoupdate-key.pem".

(** [os.Getenv] on an environment: the empty string for a variable that is
    not set. *)
Definition Getenv (environ : gmap string string) (name : string) : string :=
  default "" (environ !! name).

Definition getEnv (environ : gmap string string) (env devaultValue : string) : string :=
  let value := Getenv environ env in
  if decide (value = "") then devaultValue else value.

(** What [os.Stat] reports for a path. *)
Inductive stat :=
| Found
| NotExist
| StatFailed (err : error).

(** [os.IsNotExist(err)] for the error of [os.Stat]. *)
Definition IsNotExist (st : stat) : bool :=
  match st with NotExist => true | _ => false end.

(** What [buildReceiver] returns: the redis service for an address, or the
    faker it was given, which may be nil. *)
Inductive Updater (faker : Type) :=
| redis_Service (address : string)
| faker_Updater (f : option faker).
Arguments redis_Service {faker} _.
Arguments faker_Updater {faker} _.

(** What [datastore.New(url, closed, errHandler, receiver)] is made of. *)
Record Datastore (faker : Type) := MkDatastore {
  datastore_url : string;
  datastore_receiver : Updater faker
}.
Arguments MkDatastore {faker} _ _.
Arguments datastore_url {faker} _.
Arguments datastore_receiver {faker} _.

Section Command.
(** The process environment. *)
Variable environ : gmap string string.

(** [tls.Certificate], [autoupdateHttp.GenerateCert], [tls.LoadX509KeyPair],
    [path.Join] of two elements and [os.Stat]: the libraries and the file
    system as [getCert] finds them. Printing is left out. *)
Context {Certificate : Type}.
Variable GenerateCert : error + Certificate.
Variable LoadX509KeyPair : string → string → error + Certificate.
Variable path_Join : string → string → string.
Variable Stat : string → stat.

Definition getCert : error + Certificate :=
  let certDir := getEnv environ "CERT_DIR" "" in
  if decide (certDir = "") then
    match GenerateCert with
    | inl err => inl (fmt_Errorf "creating new certificate" err)
    | inr cert => inr cert
    end
  else
    let certFile := path_Join certDir specialCertName in
    let cert_chosen : error + string :=
      if IsNotExist (Stat certFile) then
        let certFile2 := path_Join certDir generalCertName in
        if IsNotExist (Stat certFile) then
          inl (errors_New (certFile +:+ " or " +:+ certFile2 +:+ " has to exist"))
        else inr certFile2
      else inr certFile in
    match cert_chosen with
    | inl err => inl err
    | inr certFile =>
        let keyFile := path_Join certDir specialKeyName in
        let key_chosen : error + string :=
          if IsNotExist (Stat keyFile) then
            let keyFile2 := path_Join certDir generalKeyName in
            if IsNotExist (Stat keyFile) then
              inl (errors_New (keyFile +:+ " or " +:+ keyFile2 +:+ " has to exist"))
            else inr keyFile2
          else inr keyFile in
        match key_chosen with
        | inl err => inl err
        | inr keyFile =>
            match LoadX509KeyPair certFile keyFile with
            | inl err =>
                inl (fmt_Errorf ("loading certificates from " +:+ certFile +:+ " and "
                                 +:+ keyFile) err)
            | inr cert => inr cert
            end
        end
    end.

(** The faker [newFaker(os.Stdin)] makes, the URL of its test server, and
    [conn.TestConn()] of the redis connection to an address ([None]: the
    connection works). *)
Context {faker : Type}.
Variable newFaker : faker.
Variable faker_URL : faker → string.
Variable TestConn : string → option error.

Definition buildReceiver (f : option faker) : error + Updater faker :=
  let serviceName := getEnv environ "MESSAGING" "fake" in
  if decide (serviceName = "redis") then
    let redisAddress :=
      getEnv environ "MESSAGE_BUS_HOST" "localhost" +:+ ":"
      +:+ getEnv environ "MESSAGE_BUS_PORT" "6379" in
    if decide (getEnv environ "REDIS_TEST_CONN" "true" = "true") then
      match TestConn redisAddress with
      | Some err => inl (fmt_Errorf "connect to redis" err)
      | None => inr (redis_Service redisAddress)
      end
    else inr (redis_Service redisAddress)
  else if decide (serviceName = "fake") then inr (faker_Updater f)
  else inl (errors_New ("unknown messagin service " +:+ serviceName)).

Definition buildDatastore : error + Datastore faker :=
  let dsService := getEnv environ "DATASTORE" "fake" in
  let chosen : error + (option faker * string) :=
    if decide (dsService = "fake") then inr (Some newFaker, faker_URL newFaker)
    else if decide (dsService = "service") then
      let host := getEnv environ "DATASTORE_READER_HOST" "localhost" in
      let port := getEnv environ "DATASTORE_READER_PORT" "9010" in
      let protocol := getEnv environ "DATASTORE_READER_PROTOCOL" "http" in
      inr (None, protocol +:+ "://" +:+ host +:+ ":" +:+ port)
    else inl (errors_New ("unknown datastore " +:+ dsService)) in
  match chosen with
  | inl err => inl err
  | inr (f, url) =>
      match buildReceiver f with
      | inl err => inl (fmt_Errorf "build receiver" err)
      | inr receiver => inr (MkDatastore url receiver)
      end
  end.
End Command.

(** ** Scenarios of the further properties *)

(** A data provider that hides every value. *)
Definition hidden_builder : Builder := MkBuilder (snapshot ∅) 1 [crossing] [].

(** The request for one relation list, as a list of one body. *)
Definition tags_request : json :=
  JObject [("a/1", JObject [("x_ids",
    JObject [("type", JString "relation-list"); ("collection", JString "c");
             ("fields", JObject [("f", JNull)])])])].

(** A mock restricter with one value, and what it returns for two keys. *)
Definition named_restricter : MockRestricter :=
  MkMockRestricter {[ "user/1/name" := "Hello World" ]}.

Definition named_answer : gmap string string :=
  {[ "user/1/name" := "Hello World"; "motion/1/tag_ids" := "[1,2]" ]}.

(** A certificate directory that holds [cert.pem] and [key.pem] only; a
    certificate is represented by the names of the files it was loaded
    from. *)
Definition certs_environ : gmap string string := {[ "CERT_DIR" := "/certs" ]}.

Definition join_slash (dir name : string) : string := dir +:+ "/" +:+ name.

Definition general_only (path : string) : stat :=
  if decide (path = "/certs/cert.pem") then Found
  else if decide (path = "/certs/key.pem") then Found
  else NotExist.

Definition load_names (certFile keyFile : string) : error + string :=
  inr (certFile +:+ "+" +:+ keyFile).

(** A faker with the URL of its test server, and a redis that answers. *)
Definition test_URL (f : unit) : string := "http://127.0.0.1:8080".

Definition redis_up (address : string) : option error := None.

(** * Properties *)

(** ** Lists of pairs and maps *)

Section Pairs.
Context {V : Type}.
Implicit Types (l : list (string * V)) (m : gmap string V).

Lemma insert_all_cons k v l m : insert_all ((k, v) :: l) m = insert_all l (<[k := v]> m).
Proof. done. Qed.

Lemma insert_all_app l1 l2 m : insert_all (l1 ++ l2) m = insert_all l2 (insert_all l1 m).
Proof. apply foldl_app. Qed.

Lemma insert_all_lookup_notin l m k : k ∉ l.*1 → insert_all l m !! k = m !! k.
Proof.
  revert m. induction l as [|[k' v] l IH]; intros m Hk; [done|].
  rewrite fmap_cons, not_elem_of_cons in Hk. destruct Hk as [Hne Hk].
  rewrite insert_all_cons, IH by done. by rewrite lookup_insert_ne.
Qed.

Lemma insert_all_lookup_in l m k v :
  consistent l → (k, v) ∈ l → insert_all l m !! k = Some v.
Proof.
  revert m. induction l as [|[k' v'] l IH]; intros m Hc Hin; [by apply elem_of_nil in Hin|].
  rewrite insert_all_cons. destruct (decide (k ∈ l.*1)) as [Hk|Hk].
  - apply list_elem_of_fmap in Hk as [[k2 v2] [-> Hk2]]. cbn in *.
    assert (v2 = v) as -> by (eapply Hc; [right; exact Hk2 | exact Hin]).
    apply IH; [|done]. intros k0 a1 a2 H1 H2. eapply Hc; by right.
  - rewrite insert_all_lookup_notin by done.
    apply elem_of_cons in Hin as [[= -> ->]|Hin]; [by rewrite lookup_insert_eq|].
    exfalso. apply Hk. apply list_elem_of_fmap. by exists (k, v).
Qed.

Lemma consistent_perm l l' : l ≡ₚ l' → consistent l → consistent l'.
Proof. intros Hp Hc k v1 v2 H1 H2. rewrite <- Hp in H1, H2. eauto. Qed.

Lemma consistent_NoDup l : NoDup l.*1 → consistent l.
Proof.
  intros Hnd k v1 v2 H1 H2.
  apply list_elem_of_lookup in H1 as [i Hi], H2 as [j Hj].
  assert (i = j) as ->.
  { eapply NoDup_lookup; [exact Hnd| |]; rewrite list_lookup_fmap; [by rewrite Hi | by rewrite Hj]. }
  congruence.
Qed.

(** Consistent pairs build the same map in any order. *)
Lemma insert_all_perm l l' m : l ≡ₚ l' → consistent l → insert_all l m = insert_all l' m.
Proof.
  intros Hp Hc. apply map_eq. intros k.
  destruct (decide (k ∈ l.*1)) as [Hk|Hk].
  - apply list_elem_of_fmap in Hk as [[k2 v] [-> Hk2]]. cbn.
    rewrite (insert_all_lookup_in l) with (v := v) by done.
    symmetry. apply insert_all_lookup_in; [by eapply consistent_perm | by rewrite <- Hp].
  - rewrite !insert_all_lookup_notin; [done | by rewrite <- Hp | done].
Qed.

Lemma insert_all_list_to_map l : NoDup l.*1 → insert_all l ∅ = list_to_map l.
Proof.
  intros Hnd. apply map_eq. intros k.
  destruct (decide (k ∈ l.*1)) as [Hk|Hk].
  - apply list_elem_of_fmap in Hk as [[k2 v] [-> Hk2]]. cbn.
    rewrite (insert_all_lookup_in l) with (v := v) by auto using consistent_NoDup.
    symmetry. by apply elem_of_list_to_map_1.
  - rewrite insert_all_lookup_notin by done. rewrite lookup_empty.
    symmetry. by apply not_elem_of_list_to_map_1.
Qed.

Lemma insert_all_dom l m k : k ∈ l.*1 → is_Some (insert_all l m !! k).
Proof.
  revert m. induction l as [|[k' v] l IH]; intros m Hk; [by apply elem_of_nil in Hk|].
  rewrite insert_all_cons. destruct (decide (k ∈ l.*1)) as [?|Hn]; [by apply IH|].
  rewrite insert_all_lookup_notin by done.
  apply elem_of_cons in Hk as [->|?]; [|done]. cbn. rewrite lookup_insert_eq. eauto.
Qed.

Lemma insert_all_lookup_Some l m k v :
  insert_all l m !! k = Some v → (k, v) ∈ l ∨ m !! k = Some v.
Proof.
  revert m. induction l as [|[k' v'] l IH]; intros m H; [by right|].
  rewrite insert_all_cons in H. apply IH in H as [H|H]; [left; by right|].
  destruct (decide (k' = k)) as [->|Hne].
  - rewrite lookup_insert_eq in H. injection H as ->. left. by left.
  - rewrite lookup_insert_ne in H by done. by right.
Qed.
End Pairs.

(** ** The rounds of the resolver *)

Lemma relations_cons {Desc} (e : string * option Desc) es :
  relations (e :: es) =
    match e.2 with Some d => (e.1, d) :: relations es | None => relations es end.
Proof. unfold relations. cbn. by destruct (e.2). Qed.

Lemma relations_perm {Desc} (es es' : list (string * option Desc)) :
  es ≡ₚ es' → relations es ≡ₚ relations es'.
Proof. intros H. unfold relations. by rewrite H. Qed.

Lemma elem_of_relations {Desc} (es : list (string * option Desc)) k d :
  (k, d) ∈ relations es ↔ (k, Some d) ∈ es.
Proof.
  unfold relations. rewrite list_elem_of_omap. split.
  - intros [[k' [d'|]] [Hin Heq]]; cbn in Heq; [|done]. by injection Heq as -> ->.
  - intros Hin. by exists (k, Some d).
Qed.

Lemma relations_fst_sublist {Desc} (es : list (string * option Desc)) :
  (relations es).*1 `sublist_of` es.*1.
Proof.
  induction es as [|[k [d|]] es IH]; rewrite ?relations_cons; cbn; [done| |].
  - by apply sublist_skip.
  - by apply sublist_cons.
Qed.

Lemma relations_nil_iff {Desc} (es : list (string * option Desc)) :
  relations es = [] ↔ ∀ e, e ∈ es → e.2 = None.
Proof.
  induction es as [|[k [d|]] es IH]; rewrite ?relations_cons; cbn.
  - split; [intros _ e He; by apply elem_of_nil in He | done].
  - split; [done|]. intros H. specialize (H (k, Some d)). cbn in H. discriminate H. by left.
  - rewrite IH. split.
    + intros H e [->|He]%elem_of_cons; [done | by apply H].
    + intros H e He. apply H. by right.
Qed.

Section ResolverFacts.
Context {World Desc body : Type}.
Variable desc_keys :
  Desc → string → document → gmap string (option Desc) → error + gmap string (option Desc).
Variable top_keys : body → gmap string (option Desc) → gmap string (option Desc).
Implicit Types (process : gmap string (option Desc)) (s : Sched Desc).
Implicit Types (dp : @DataProvider World) (b : @Builder World body).
Implicit Types (ks needed : list string) (calls : list (list string)).

Lemma foldl_collect (es : list (string * option Desc)) ks needed (processed : gmap string Desc) :
  foldl collect (ks, needed, processed) es =
    (ks ++ es.*1, needed ++ (relations es).*1, insert_all (relations es) processed).
Proof.
  revert ks needed processed. induction es as [|[k [d|]] es IH]; intros ks needed processed.
  - cbn. by rewrite !app_nil_r.
  - cbn [foldl]. unfold collect at 2. cbn [fst snd]. rewrite IH, relations_cons. cbn.
    by rewrite <- !app_assoc.
  - cbn [foldl]. unfold collect at 2. cbn [fst snd]. rewrite IH, relations_cons. cbn.
    by rewrite <- !app_assoc.
Qed.

Lemma round_eq s w dp u n process ks :
  round desc_keys s w dp u n process ks =
    match (relations (visited s n process)).*1 with
    | [] => Done (ks ++ (visited s n process).*1)
    | _ :: _ =>
        match dp w u (relations (visited s n process)).*1 with
        | inl err =>
            Abort (fmt_Errorf "load needed keys" err) (relations (visited s n process)).*1
        | inr data =>
            match expand desc_keys data
                    (entered s n process) ∅ with
            | inl err => Abort err (relations (visited s n process)).*1
            | inr process' =>
                Continue process' (ks ++ (visited s n process).*1)
                  (relations (visited s n process)).*1
            end
        end
    end.
Proof.
  unfold round, entered, visited. rewrite foldl_collect. cbn.
  by destruct ((relations _).*1).
Qed.

Lemma visited_perm s n process :
  valid_sched s → visited s n process ≡ₚ map_to_list process.
Proof. intros [H _]. apply H. Qed.

Lemma visited_NoDup s n process : valid_sched s → NoDup (visited s n process).*1.
Proof.
  intros H. rewrite (visited_perm _ _ _ H). apply NoDup_fst_map_to_list.
Qed.

(** The map [processed] of a round holds the entries with a description. *)
Lemma processed_perm s n process :
  valid_sched s →
  map_to_list (insert_all (relations (visited s n process)) ∅)
    ≡ₚ relations (visited s n process).
Proof.
  intros H.
  assert (NoDup (relations (visited s n process)).*1) as Hnd.
  { eapply sublist_NoDup; [by apply (visited_NoDup s n process) | apply relations_fst_sublist]. }
  rewrite insert_all_list_to_map by done. by apply map_to_list_to_map.
Qed.

Lemma entered_perm s n process :
  valid_sched s →
  entered s n process ≡ₚ relations (map_to_list process).
Proof.
  intros H. unfold entered. destruct H as [H1 H2] eqn:E. rewrite H2.
  rewrite processed_perm by done. apply relations_perm. by apply visited_perm.
Qed.

(** The keys of a finished run: one list per round, each without
    repetition, the first one listing the keys of [process]. *)
Lemma resolve_finished fuel s w dp u n process ks calls ks' calls' :
  valid_sched s →
  resolve desc_keys fuel s w dp u n process ks calls = Some (Finished ks', calls') →
  ∃ g gens, ks' = ks ++ concat (g :: gens) ∧ Forall NoDup (g :: gens) ∧
    g ≡ₚ (map_to_list process).*1 ∧ length calls' = (length calls + length gens)%nat.
Proof.
  intros Hs. revert n process ks calls.
  induction fuel as [|fuel IH]; intros n process ks calls Hr; [done|].
  cbn [resolve] in Hr. rewrite round_eq in Hr.
  pose proof (visited_NoDup s n process Hs) as Hnd.
  pose proof (visited_perm s n process Hs) as Hp.
  destruct ((relations (visited s n process)).*1) as [|k needed] eqn:En.
  - injection Hr as <- <-. exists (visited s n process).*1, [].
    cbn. rewrite app_nil_r, Nat.add_0_r.
    split; [done|]. split; [constructor; [exact Hnd | constructor]|].
    split; [by rewrite Hp | done].
  - destruct (dp w u (k :: needed)) as [err|data]; [done|].
    destruct (expand _ _ _ _) as [err|process']; [done|].
    apply IH in Hr as (g & gens & -> & Hall & _ & Hlen).
    exists (visited s n process).*1, (g :: gens).
    split; [by rewrite <- app_assoc|]. split; [by constructor|].
    split; [by rewrite Hp|]. rewrite Hlen, length_app. cbn. lia.
Qed.

(** A run that needs no values ends in its first round without a call. *)
Lemma resolve_plain fuel s w dp u n process ks calls :
  valid_sched s →
  (∀ k d, process !! k = Some d → d = None) →
  resolve desc_keys (S fuel) s w dp u n process ks calls
    = Some (Finished (ks ++ (visited s n process).*1), calls).
Proof.
  intros Hs Hplain. cbn [resolve]. rewrite round_eq.
  assert (relations (visited s n process) = []) as ->; [|done].
  apply relations_nil_iff. intros [k d] He. cbn.
  rewrite (visited_perm _ _ _ Hs) in He.
  apply elem_of_map_to_list in He. eauto.
Qed.
Lemma Update_failed fuel s w b b' err calls :
  Update desc_keys top_keys fuel s w b = Some (b', Some err, calls) →
  b' = MkBuilder (dataProvider b) (uid b) (bodies b) [].
Proof.
  unfold Update. destruct (resolve _ _ _ _ _ _ _ _ _ _) as [[[ks|e] cs]|]; [done| |done].
  by intros [= <- _ _].
Qed.

(** C2. When [Update] returns an error, [Keys] is empty afterwards and the
    bodies are as before; a later [Update] that returns no error leaves the
    builder that [newBuilder] makes from these bodies, its key list built
    from nothing. *)
Theorem Update_error_resets fuel s w b b' err calls :
  Update desc_keys top_keys fuel s w b = Some (b', Some err, calls) →
  Keys b' = [] ∧ bodies b' = bodies b ∧
  ∀ fuel' s' w' b'' calls',
    Update desc_keys top_keys fuel' s' w' b' = Some (b'', None, calls') →
    newBuilder desc_keys top_keys fuel' s' w' (dataProvider b) (uid b) (bodies b)
      = Some (inr b'').
Proof.
  intros ->%Update_failed. split; [done|]. split; [done|].
  intros fuel' s' w' b'' calls' H. unfold newBuilder. by rewrite H.
Qed.

(** C5. In the loop over [processed], a key whose value is absent from the
    data or nil is passed over: the loop ends as it does without that
    entry, so the key adds no key and no error and the other entries are
    expanded as usual. *)
Theorem expand_skips_invisible (data : Data) entries key description entries' process :
  data !! key = None ∨ data !! key = Some None →
  expand desc_keys data (entries ++ (key, description) :: entries') process
    = expand desc_keys data (entries ++ entries') process.
Proof.
  intros Hnil. assert (index data key = None) as Hi.
  { unfold index. by destruct Hnil as [-> | ->]. }
  revert process. induction entries as [|[k d] entries IH]; intros process.
  - cbn. by rewrite Hi.
  - cbn. destruct (index data k) as [value|]; [|apply IH].
    destruct (desc_keys d k value process) as [err|process']; [done | apply IH].
Qed.

Lemma Update_finished fuel s w b b' calls :
  Update desc_keys top_keys fuel s w b = Some (b', None, calls) →
  resolve desc_keys fuel s w (dataProvider b) (uid b) 0 (seed top_keys (bodies b)) [] []
    = Some (Finished (Keys b'), calls).
Proof.
  unfold Update. destruct (resolve _ _ _ _ _ _ _ _ _ _) as [[[ks|e] cs]|]; [|done..].
  by intros [= <- <-].
Qed.

(** The key list of a successful [Update], round by round. *)
Lemma Update_rounds fuel s w b b' calls :
  valid_sched s →
  Update desc_keys top_keys fuel s w b = Some (b', None, calls) →
  ∃ g gens, Keys b' = concat (g :: gens) ∧ Forall NoDup (g :: gens) ∧
    g ≡ₚ (map_to_list (seed top_keys (bodies b))).*1 ∧ length calls = length gens.
Proof.
  intros Hs H%Update_finished. by apply resolve_finished in H.
Qed.
(** From the state a run reaches, the loop goes on as [resolve] says. *)
Lemma reaches_resolve s w b n process ks calls :
  reaches desc_keys top_keys s w b n process ks calls →
  ∀ fuel,
    resolve desc_keys (n + fuel) s w (dataProvider b) (uid b) 0
        (seed top_keys (bodies b)) [] []
      = resolve desc_keys fuel s w (dataProvider b) (uid b) n process ks calls.
Proof.
  induction 1 as [|n process ks calls process' ks' needed _ IH Hround]; intros fuel; [done|].
  replace (S n + fuel)%nat with (n + S fuel)%nat by lia.
  rewrite IH. cbn [resolve]. by rewrite Hround.
Qed.

(** A run that fails has reached a round that ends with that error. *)
Lemma resolve_failed fuel s w b n process ks calls err calls' :
  reaches desc_keys top_keys s w b n process ks calls →
  resolve desc_keys fuel s w (dataProvider b) (uid b) n process ks calls
    = Some (Failed err, calls') →
  ∃ n' process' ks' calls'' needed,
    reaches desc_keys top_keys s w b n' process' ks' calls'' ∧
    round desc_keys s w (dataProvider b) (uid b) n' process' ks' = Abort err needed.
Proof.
  revert n process ks calls. induction fuel as [|fuel IH]; intros n process ks calls Hr; [done|].
  cbn [resolve].
  destruct (round _ _ _ _ _ _ _ _) as [?|e needed|process' ks' needed] eqn:Hround; [done| |].
  - intros [= -> _]. by exists n, process, ks, calls, needed.
  - apply IH. by econstructor.
Qed.
(** More fuel does not change the result of a run. *)
Lemma resolve_more_fuel fuel fuel' s w dp u n process ks calls r :
  resolve desc_keys fuel s w dp u n process ks calls = Some r →
  (fuel ≤ fuel')%nat →
  resolve desc_keys fuel' s w dp u n process ks calls = Some r.
Proof.
  revert fuel' n process ks calls.
  induction fuel as [|fuel IH]; intros fuel' n process ks calls H Hle; [done|].
  destruct fuel' as [|fuel']; [lia|]. cbn [resolve] in *.
  destruct (round _ _ _ _ _ _ _ _) as [?|??|process' ks' needed]; [done..|].
  apply IH; [done | lia].
Qed.

Lemma Update_more_fuel fuel fuel' s w b r :
  Update desc_keys top_keys fuel s w b = Some r →
  (fuel ≤ fuel')%nat →
  Update desc_keys top_keys fuel' s w b = Some r.
Proof.
  unfold Update. intros H Hle.
  destruct (resolve desc_keys fuel _ _ _ _ _ _ _ _) as [r'|] eqn:E; [|done].
  by rewrite (resolve_more_fuel _ _ _ _ _ _ _ _ _ _ _ E Hle).
Qed.
End ResolverFacts.

(** ** The keys of a request *)

Lemma build_insert_all collectionID fields (m : gmap string fieldDescription) :
  build collectionID fields m = insert_all (object_keys collectionID fields) m.
Proof. unfold build, insert_all, object_keys. by rewrite foldl_fmap. Qed.

Lemma insert_all_bind {A V} (g : A → list (string * V)) (l : list A) (m : gmap string V) :
  foldl (λ m x, insert_all (g x) m) m l = insert_all (l ≫= g) m.
Proof.
  revert m. induction l as [|x l IH]; intros m; [done|].
  rewrite bind_cons, insert_all_app, <- IH. done.
Qed.

Lemma foldl_ext {A B} (f g : A → B → A) (a : A) (l : list B) :
  (∀ a x, f a x = g a x) → foldl f a l = foldl g a l.
Proof.
  intros H. revert a. induction l as [|x l IH]; intros a; [done|].
  cbn. by rewrite H, IH.
Qed.

Lemma body_keys_insert_all (bd : body) (m : gmap string fieldDescription) :
  body_keys bd m = insert_all (bd ≫= λ cf, object_keys cf.1 cf.2) m.
Proof.
  unfold body_keys. rewrite <- insert_all_bind.
  apply foldl_ext. intros m' cf. apply build_insert_all.
Qed.

Lemma seed_insert_all (bs : list body) :
  seed body_keys bs = insert_all (top_pairs bs) ∅.
Proof.
  unfold seed, top_pairs. rewrite <- insert_all_bind.
  apply foldl_ext. intros m bd. apply body_keys_insert_all.
Qed.

Lemma elem_of_top_pairs bs k d :
  (k, d) ∈ top_pairs bs ↔
    ∃ bd collectionID fields f, bd ∈ bs ∧ (collectionID, fields) ∈ bd ∧ (f, d) ∈ fields ∧
      k = buildGenericKey collectionID f.
Proof.
  unfold top_pairs, object_keys. rewrite list_elem_of_bind. split.
  - intros (bd & Hin & Hbd). apply list_elem_of_bind in Hin as ([cid fields] & Hin & Hcf).
    apply list_elem_of_fmap in Hin as ([f d'] & [= -> ->] & Hf).
    by exists bd, cid, fields, f.
  - intros (bd & cid & fields & f & Hbd & Hcf & Hf & ->).
    exists bd. split; [|done]. apply list_elem_of_bind. exists (cid, fields). split; [|done].
    apply list_elem_of_fmap. by exists (f, d).
Qed.

Lemma top_level_seed bs k : top_level bs k ↔ is_Some (seed body_keys bs !! k).
Proof.
  rewrite seed_insert_all. split.
  - intros (bd & cid & fields & f & d & Hbd & Hcf & Hf & ->).
    apply insert_all_dom. apply list_elem_of_fmap.
    exists (buildGenericKey cid f, d). split; [done|].
    apply elem_of_top_pairs. by exists bd, cid, fields, f.
  - intros [d H]. apply insert_all_lookup_Some in H as [H|H]; [|by rewrite lookup_empty in H].
    apply elem_of_top_pairs in H as (bd & cid & fields & f & ? & ? & ? & ->).
    by exists bd, cid, fields, f, d.
Qed.

Lemma top_level_keys bs k : top_level bs k ↔ k ∈ (map_to_list (seed body_keys bs)).*1.
Proof.
  rewrite top_level_seed, list_elem_of_fmap. split.
  - intros [d H]. exists (k, d). split; [done|]. by apply elem_of_map_to_list.
  - intros ([k' d] & -> & H). apply elem_of_map_to_list in H. by exists d.
Qed.

Lemma plain_seed bs k d : plain bs → seed body_keys bs !! k = Some d → d = None.
Proof.
  intros Hplain H. rewrite seed_insert_all in H.
  apply insert_all_lookup_Some in H as [H|H]; [|by rewrite lookup_empty in H].
  apply elem_of_top_pairs in H as (bd & cid & fields & f & ? & ? & ? & ->).
  by eapply Hplain.
Qed.

Section RequestFacts.
Context {World : Type}.
Implicit Types (b : @Builder World body) (s : Sched description).

(** C9. After a successful [Update] every top-level key of every body is in
    the key list, a relation key as well as a plain one, whatever the data
    provider returned. *)
Theorem Update_keeps_top_level fuel s (w : World) b b' calls :
  valid_sched s →
  Update description_keys body_keys fuel s w b = Some (b', None, calls) →
  ∀ k, top_level (bodies b) k → k ∈ Keys b'.
Proof.
  intros Hs H k Hk. apply Update_rounds in H as (g & gens & -> & _ & Hg & _); [|done].
  cbn. apply elem_of_app. left. rewrite Hg. by apply top_level_keys.
Qed.

(** C10. For a request of plain fields only, [Update] succeeds in its first
    round without a call to the data provider, and the key list holds the
    top-level keys of the bodies, each once. *)
Theorem Update_plain fuel s (w : World) b :
  valid_sched s →
  plain (bodies b) →
  ∃ ks, Update description_keys body_keys (S fuel) s w b = Some (set_keys ks b, None, [])
    ∧ NoDup ks ∧ ∀ k, k ∈ ks ↔ top_level (bodies b) k.
Proof.
  intros Hs Hplain. exists (visited s 0 (seed body_keys (bodies b))).*1.
  split; [|split].
  - unfold Update. rewrite resolve_plain; [done..|].
    intros k d. by apply plain_seed.
  - by apply visited_NoDup.
  - intros k. rewrite top_level_keys. by rewrite (visited_perm s 0 _ Hs).
Qed.
(** C4, as the code has it. The key list of a successful [Update] is made
    of one list per round; no key occurs twice in the list of one round,
    and the list of the first round holds the top-level keys, so a key that
    several bodies share is listed once there. (Nothing keeps a key of one
    round out of the list of a later round.) *)
Theorem Update_keys_once_per_round fuel s (w : World) b b' calls :
  valid_sched s →
  Update description_keys body_keys fuel s w b = Some (b', None, calls) →
  ∃ g gens, Keys b' = concat (g :: gens) ∧ Forall NoDup (g :: gens) ∧
    (∀ k, k ∈ g ↔ top_level (bodies b) k) ∧ length gens = length calls.
Proof.
  intros Hs H. apply Update_rounds in H as (g & gens & Hk & Hnd & Hg & Hlen); [|done].
  exists g, gens. split; [done|]. split; [done|]. split; [|done].
  intros k. by rewrite Hg, top_level_keys.
Qed.
End RequestFacts.

(** ** Request parsing *)

Section ParsingFacts.
Context {World Desc body : Type}.
Variable desc_keys :
  Desc → string → document → gmap string (option Desc) → error + gmap string (option Desc).
Variable top_keys : body → gmap string (option Desc) → gmap string (option Desc).
Variable unmarshal_body : json → error + body.
Implicit Types (dp : @DataProvider World) (s : Sched Desc).

(** C7. [FromJSON] on an empty reader, and [ManyFromJSON] on an empty
    reader and on the empty JSON array, return [InvalidError{"No data"}]. *)
Theorem no_data fuel s (w : World) dp u :
  FromJSON desc_keys top_keys unmarshal_body fuel s w None dp u
    = Some (inl (InvalidError "No data")) ∧
  ManyFromJSON desc_keys top_keys unmarshal_body fuel s w None dp u
    = Some (inl (InvalidError "No data")) ∧
  ManyFromJSON desc_keys top_keys unmarshal_body fuel s w (Some (Valid (JArray []))) dp u
    = Some (inl (InvalidError "No data")).
Proof. done. Qed.

(** C8, on the code. When the decoder reports a value of the wrong JSON
    type, [ManyFromJSON] returns an [InvalidError] with the message
    "wrong type at field ...", and [FromJSON] returns a [JSONError] that
    wraps the decoder's error. *)
Theorem wrong_type_errors fuel s (w : World) dp u j rest got expect field :
  unmarshal_body j = inl (json_UnmarshalTypeError got expect field) →
  FromJSON desc_keys top_keys unmarshal_body fuel s w (Some (Valid j)) dp u
    = Some (inl (JSONError (json_UnmarshalTypeError got expect field))) ∧
  ManyFromJSON desc_keys top_keys unmarshal_body fuel s w (Some (Valid (JArray (j :: rest)))) dp u
    = Some (inl (InvalidError
        ("wrong type at field `" +:+ field +:+ "`. Got " +:+ got +:+ ", expected " +:+
         match expect with
         | Struct => "object" | Slice => "list" | Int => "number"
         | _ => Kind_String expect
         end))).
Proof.
  intros H. unfold FromJSON, ManyFromJSON, Decode_body, Decode_bodies.
  cbn [unmarshal_bodies]. by rewrite H.
Qed.
End ParsingFacts.

(** ** The first delivery *)

Section ConnectionFacts.
Context {World KeysBuilder : Type}.
Variable builder_Keys : KeysBuilder → list string.
Variable RestrictedData : World → Z → list string → error + Data.
Variable laterNext :
  World → @Connection KeysBuilder →
  error + (gmap string (option document) * @Connection KeysBuilder).

Lemma deliver_foldl (data : Data) ks out lst :
  foldl (deliver data) (out, lst) ks
    = (insert_all (visible data ks) out, insert_all (visible data ks) lst).
Proof.
  revert out lst. induction ks as [|k ks IH]; intros out lst; [done|].
  cbn [foldl]. unfold deliver at 2, visible. cbn [omap list_omap].
  destruct (index data k) as [v|]; cbn [fst snd fmap option_fmap option_map]; apply IH.
Qed.

Lemma elem_of_visible (data : Data) ks k v :
  (k, v) ∈ visible data ks ↔ k ∈ ks ∧ index data k = Some v.
Proof.
  unfold visible. rewrite list_elem_of_omap. split.
  - intros (k' & Hin & Hk). destruct (index data k') as [v'|] eqn:E; [|done].
    cbn in Hk. by injection Hk as -> ->.
  - intros [Hin Hv]. exists k. by rewrite Hv.
Qed.

Lemma visible_consistent (data : Data) ks : consistent (visible data ks).
Proof.
  intros k v1 v2 [_ H1]%elem_of_visible [_ H2]%elem_of_visible. congruence.
Qed.

Lemma visible_lookup (data : Data) ks (m : gmap string document) k :
  insert_all (visible data ks) m !! k =
    if decide (k ∈ ks) then match index data k with Some v => Some v | None => m !! k end
    else m !! k.
Proof.
  destruct (decide (k ∈ ks)) as [Hin|Hin]; [destruct (index data k) as [v|] eqn:Ev|].
  - apply insert_all_lookup_in; [apply visible_consistent | by apply elem_of_visible].
  - apply insert_all_lookup_notin. intros ([k' v] & -> & H)%list_elem_of_fmap.
    apply elem_of_visible in H as [_ H]. cbn in Ev. congruence.
  - apply insert_all_lookup_notin. intros ([k' v] & -> & H)%list_elem_of_fmap.
    apply elem_of_visible in H as [H _]. done.
Qed.

(** C1. The first successful call of [Next] returns the keys of the
    builder's key set whose restricted value is present, each with that
    value, and nothing else; those keys go into [last] with their value,
    and a key whose value is absent or nil is neither returned nor put into
    [last]. *)
Theorem first_Next_visible (w : World) c out c' :
  firstCall c = true →
  Next builder_Keys RestrictedData laterNext w c = inr (out, c') →
  ∃ data, RestrictedData w (conn_uid c) (builder_Keys (builder c)) = inr data ∧
    (∀ k v, k ∈ builder_Keys (builder c) → index data k = Some v →
       out !! k = Some (Some v) ∧ last c' !! k = Some v) ∧
    (∀ k, k ∈ builder_Keys (builder c) → index data k = None →
       out !! k = None ∧ last c' !! k = last c !! k) ∧
    (∀ k, k ∉ builder_Keys (builder c) → out !! k = None ∧ last c' !! k = last c !! k).
Proof.
  intros Hfirst. unfold Next. rewrite Hfirst.
  destruct (RestrictedData _ _ _) as [err|data]; [done|]. intros [= <- <-].
  exists data. split; [done|]. cbn [last]. rewrite deliver_foldl. cbn [fst snd].
  split; [|split].
  - intros k v Hin Hv. rewrite lookup_fmap, !visible_lookup, Hv.
    by rewrite !decide_True by done.
  - intros k Hin Hv. rewrite lookup_fmap, !visible_lookup, Hv, lookup_empty.
    by rewrite !decide_True by done.
  - intros k Hin. rewrite lookup_fmap, !visible_lookup, lookup_empty.
    by rewrite !decide_False by done.
Qed.
End ConnectionFacts.

(** ** The descriptions of the request *)

Lemma description_keys_children d key value (m : gmap string fieldDescription) :
  description_keys d key value m =
    match children d value with inl err => inl err | inr l => inr (insert_all l m) end.
Proof.
  destruct d as [c fs|c fs]; cbn.
  - destruct (Unmarshal_string value) as [e|cid]; [done|].
    destruct (cut cid) as [[c' r]|]; [|done]. case_decide; [|done].
    by rewrite build_insert_all.
  - destruct (Unmarshal_ints value) as [e|ids]; [done|]. f_equal.
    rewrite <- insert_all_bind. apply foldl_ext. intros. apply build_insert_all.
Qed.

Lemma failures_cons data k d es :
  failures data ((k, d) :: es) =
    match index data k with
    | None => failures data es
    | Some value =>
        match children d value with
        | inl err => (k, err) :: failures data es
        | inr _ => failures data es
        end
    end.
Proof.
  unfold failures. cbn. destruct (index data k) as [v|]; [|done].
  by destruct (children d v).
Qed.

Lemma offspring_cons data k d es :
  offspring data ((k, d) :: es) =
    match index data k with
    | None => []
    | Some value => match children d value with inl _ => [] | inr l => l end
    end ++ offspring data es.
Proof. done. Qed.

Lemma failures_perm data es es' : es ≡ₚ es' → failures data es ≡ₚ failures data es'.
Proof. intros H. unfold failures. by rewrite H. Qed.

Lemma offspring_perm data es es' : es ≡ₚ es' → offspring data es ≡ₚ offspring data es'.
Proof. intros H. unfold offspring. by rewrite H. Qed.

Lemma failures_app data es es' : failures data (es ++ es') = failures data es ++ failures data es'.
Proof. unfold failures. apply omap_app. Qed.

(** The loop over [processed] stops at the first entry whose value is
    rejected; when there is none it has put all pairs into the map. *)
Lemma expand_children data es (m : gmap string fieldDescription) :
  expand description_keys data es m =
    match failures data es with
    | (k, err) :: _ => inl (report k err)
    | [] => inr (insert_all (offspring data es) m)
    end.
Proof.
  revert m. induction es as [|[k d] es IH]; intros m; [done|].
  cbn [expand]. rewrite failures_cons, offspring_cons.
  destruct (index data k) as [v|]; [|apply IH].
  rewrite description_keys_children. destruct (children d v) as [e|l]; [done|].
  rewrite IH, insert_all_app. done.
Qed.

Lemma children_error d value err :
  children d value = inl err →
  match errors_As_UnmarshalTypeError err with
  | Some (got, expect, _) => wrong_shape d value = Some (got, expect)
  | None => is_ValueError err = false
  end.
Proof.
  destruct d as [c fs|c fs]; cbn.
  - destruct (Unmarshal_string value) as [e|cid] eqn:E.
    + intros [= <-]. destruct value as [[]|]; cbn in E; simplify_eq; done.
    + destruct (cut cid) as [[c' r]|]; [case_decide|]; by intros [= <-].
  - destruct (Unmarshal_ints value) as [e|ids] eqn:E; [|done].
    intros [= <-]. destruct value as [j|]; cbn in E; [|by simplify_eq].
    assert (∀ items e, Unmarshal_elements items = inl e →
      ∃ got expect f, e = json_UnmarshalTypeError got expect f) as Hel.
    { clear. induction items as [|j items IH]; intros e; [done|]. cbn.
      destruct (Unmarshal_int j) as [e'|id] eqn:Ej.
      - intros [= <-]. destruct j; cbn in Ej; try case_bool_decide; simplify_eq; eauto.
      - destruct (Unmarshal_elements items) as [e'|ids]; [|done]. intros [= <-]. eauto. }
    destruct j; try (simplify_eq; done).
    destruct (Hel _ _ E) as (got & expect & f & ->). done.
Qed.

Lemma wrong_shape_children d value got expect :
  wrong_shape d value = Some (got, expect) →
  ∃ field, children d value = inl (json_UnmarshalTypeError got expect field).
Proof.
  destruct d as [c fs|c fs]; cbn.
  - destruct (Unmarshal_string value) as [[]|cid]; try done. intros [= -> ->]. eauto.
  - destruct (Unmarshal_ints value) as [[]|ids]; try done. intros [= -> ->]. eauto.
Qed.

(** ** Termination *)

Lemma depth_relationField c fs : depth (relationField c fs) = S (fields_depth fs).
Proof.
  cbn [depth]. f_equal. induction fs as [|[f [d|]] fs IH]; cbn; [done| |done].
  by rewrite IH.
Qed.

Lemma depth_relationListField c fs : depth (relationListField c fs) = S (fields_depth fs).
Proof.
  cbn [depth]. f_equal. induction fs as [|[f [d|]] fs IH]; cbn; [done| |done].
  by rewrite IH.
Qed.

Lemma depth_pos d : (0 < depth d)%nat.
Proof. destruct d; rewrite ?depth_relationField, ?depth_relationListField; lia. Qed.

Lemma fields_depth_bound (fs : fieldsMap) f fd :
  (f, fd) ∈ fs → (fd_depth fd ≤ fields_depth fs)%nat.
Proof.
  induction fs as [|[f' fd'] fs IH]; [by intros ?%elem_of_nil|].
  unfold fields_depth in *. cbn [foldr].
  intros [[= -> ->]|Hin]%elem_of_cons; [cbn [snd]; lia|]. apply IH in Hin. lia.
Qed.

Lemma object_keys_depth cid (fs : fieldsMap) k fd :
  (k, fd) ∈ object_keys cid fs → (fd_depth fd ≤ fields_depth fs)%nat.
Proof.
  unfold object_keys. intros ([f fd'] & [= -> ->] & H)%list_elem_of_fmap.
  by eapply fields_depth_bound.
Qed.

Lemma children_depth d value l k fd :
  children d value = inr l → (k, fd) ∈ l → (fd_depth fd < depth d)%nat.
Proof.
  destruct d as [c fs|c fs]; cbn [children].
  - rewrite depth_relationField. destruct (Unmarshal_string value) as [e|cid]; [done|].
    destruct (cut cid) as [[c' r]|]; [|done]. case_decide; [|done].
    intros [= <-] Hin%object_keys_depth. lia.
  - rewrite depth_relationListField. destruct (Unmarshal_ints value) as [e|ids]; [done|].
    intros [= <-] (id & Hin%object_keys_depth & _)%list_elem_of_bind. lia.
Qed.

Lemma offspring_depth data es D k fd :
  (∀ k d, (k, d) ∈ es → (depth d ≤ S D)%nat) →
  (k, fd) ∈ offspring data es → (fd_depth fd ≤ D)%nat.
Proof.
  intros Hes ([key d] & H & Hin)%list_elem_of_bind. cbn in H.
  destruct (index data key) as [v|]; [|by apply elem_of_nil in H].
  destruct (children d v) as [e|l] eqn:Ec; [by apply elem_of_nil in H|].
  pose proof (children_depth _ _ _ _ _ Ec H). specialize (Hes _ _ Hin). lia.
Qed.

Section Termination.
Context {World : Type}.
Implicit Types (dp : @DataProvider World) (b : @Builder World body).
Implicit Types (s : Sched description) (process : gmap string fieldDescription).

(** The loop of [Update] ends within as many rounds as the descriptions in
    [process] are deep, plus one. *)
Lemma resolve_terminates fuel s (w : World) dp u n process ks calls D :
  valid_sched s →
  map_Forall (λ _ fd, (fd_depth fd ≤ D)%nat) process →
  (D < fuel)%nat →
  is_Some (resolve description_keys fuel s w dp u n process ks calls).
Proof.
  intros Hs. revert D n process ks calls.
  induction fuel as [|fuel IH]; intros D n process ks calls HD Hlt; [lia|].
  cbn [resolve]. rewrite round_eq.
  destruct ((relations (visited s n process)).*1) as [|k nd] eqn:E; [done|].
  destruct (dp w u (k :: nd)) as [err|data]; [done|].
  rewrite expand_children.
  destruct (failures data (entered s n process)) as [|[??]?]; [|done].
  assert (∀ key d, (key, d) ∈ entered s n process → (depth d ≤ D)%nat) as Hent.
  { intros key d Hin. rewrite (entered_perm s n process Hs) in Hin.
    apply elem_of_relations, elem_of_map_to_list in Hin. by apply HD in Hin. }
  destruct D as [|D].
  { exfalso. assert (k ∈ (relations (visited s n process)).*1) as Hk by (rewrite E; left).
    apply list_elem_of_fmap in Hk as ([k' d] & _ & Hk).
    apply elem_of_relations in Hk. rewrite (visited_perm s n process Hs) in Hk.
    apply elem_of_map_to_list, HD in Hk. cbn in Hk. pose proof (depth_pos d). lia. }
  apply (IH D); [|lia].
  intros key fd Hl. apply insert_all_lookup_Some in Hl as [Hl|Hl]; [|by rewrite lookup_empty in Hl].
  by eapply offspring_depth.
Qed.

Lemma seed_depth (bs : list body) :
  map_Forall (λ _ fd, (fd_depth fd ≤ pred (rounds bs))%nat) (seed body_keys bs).
Proof.
  intros k fd H. rewrite seed_insert_all in H.
  apply insert_all_lookup_Some in H as [H|H]; [|by rewrite lookup_empty in H].
  apply elem_of_top_pairs in H as (bd & cid & fields & f & Hbd & Hcf & Hf & _).
  apply fields_depth_bound in Hf. unfold rounds. cbn [pred].
  assert (fields_depth fields ≤ body_depth bd)%nat as H1.
  { clear -Hcf. induction bd as [|cf bd IH]; [by apply elem_of_nil in Hcf|].
    unfold body_depth in *. cbn [foldr].
    apply elem_of_cons in Hcf as [<-|Hcf]; [cbn [snd]; lia|]. apply IH in Hcf. lia. }
  assert (body_depth bd ≤ foldr (λ x n, Nat.max (body_depth x) n) O bs)%nat as H2.
  { clear -Hbd. induction bs as [|b' bs IH]; [by apply elem_of_nil in Hbd|].
    cbn [foldr]. apply elem_of_cons in Hbd as [<-|Hbd]; [lia|]. apply IH in Hbd. lia. }
  lia.
Qed.

(** [Update] returns: [rounds] of the bodies is enough fuel. *)
Lemma Update_terminates fuel s (w : World) b :
  valid_sched s → (rounds (bodies b) ≤ fuel)%nat →
  is_Some (Update description_keys body_keys fuel s w b).
Proof.
  intros Hs Hfuel. unfold Update.
  destruct (resolve_terminates fuel s w (dataProvider b) (uid b) 0
              (seed body_keys (bodies b)) [] [] (pred (rounds (bodies b))) Hs
              (seed_depth _)) as [[[ks|e] cs] ->]; [unfold rounds in *; lia|done..].
Qed.
End Termination.

(** ** The order of enumeration *)

Section OrderFacts.
Context {World : Type}.
Implicit Types (dp : @DataProvider World) (b : @Builder World body).
Implicit Types (s : Sched description) (process : gmap string fieldDescription).

Lemma entered_failures s n process data :
  valid_sched s →
  failures data
    (entered s n process)
    ≡ₚ failures data (relations (map_to_list process)).
Proof. intros Hs. apply failures_perm. by apply entered_perm. Qed.

Lemma entered_offspring s n process data :
  valid_sched s →
  offspring data
    (entered s n process)
    ≡ₚ offspring data (relations (map_to_list process)).
Proof. intros Hs. apply offspring_perm. by apply entered_perm. Qed.

Lemma needed_perm s n process :
  valid_sched s →
  (relations (visited s n process)).*1 ≡ₚ (relations (map_to_list process)).*1.
Proof. intros Hs. by rewrite (relations_perm _ _ (visited_perm s n process Hs)). Qed.

(** One round under a valid schedule, in terms of the canonical listing. *)
Lemma round_canonical_form s (w : World) dp u n process ks :
  valid_sched s → order_blind dp w u →
  ∃ vs nd, vs ≡ₚ (map_to_list process).*1 ∧ nd ≡ₚ (relations (map_to_list process)).*1 ∧
    round description_keys s w dp u n process ks =
      match (relations (map_to_list process)).*1 with
      | [] => Done (ks ++ vs)
      | _ :: _ =>
          match dp w u (relations (map_to_list process)).*1 with
          | inl err => Abort (fmt_Errorf "load needed keys" err) nd
          | inr data =>
              match failures data (entered s n process) with
              | (k, err) :: _ => Abort (report k err) nd
              | [] =>
                  Continue
                    (insert_all (offspring data (entered s n process)) ∅)
                    (ks ++ vs) nd
              end
          end
      end.
Proof.
  intros Hs Hdp. exists (visited s n process).*1, (relations (visited s n process)).*1.
  split; [by rewrite (visited_perm s n process Hs)|]. split; [by apply needed_perm|].
  rewrite round_eq. pose proof (needed_perm s n process Hs) as Hn.
  rewrite <- (Hdp _ _ Hn).
  destruct ((relations (visited s n process)).*1) as [|k nd] eqn:E1.
  - apply Permutation_nil_l in Hn. by rewrite <- Hn.
  - destruct ((relations (map_to_list process)).*1) as [|k' nd'] eqn:E2.
    { by apply Permutation_nil_r in Hn. }
    destruct (dp w u (k :: nd)) as [err|data]; [done|].
    rewrite expand_children. by destruct (failures _ _) as [|[??]?].
Qed.

(** Two runs that differ in the order of enumeration only end alike when
    the rounds are free of conflicts. *)
Lemma resolve_order_free fuel s1 s2 (w : World) dp u n process ks1 ks2 calls1 calls2 :
  valid_sched s1 → valid_sched s2 → order_blind dp w u →
  conflict_free fuel w dp u process → ks1 ≡ₚ ks2 →
  match resolve description_keys fuel s1 w dp u n process ks1 calls1,
        resolve description_keys fuel s2 w dp u n process ks2 calls2 with
  | Some (Finished k1, _), Some (Finished k2, _) => k1 ≡ₚ k2
  | Some (Failed _, _), Some (Failed _, _) => True
  | None, None => True
  | _, _ => False
  end.
Proof.
  intros Hs1 Hs2 Hdp. revert n process ks1 ks2 calls1 calls2.
  induction fuel as [|fuel IH]; intros n process ks1 ks2 calls1 calls2 Hcf Hks; [done|].
  cbn [resolve].
  destruct (round_canonical_form s1 w dp u n process ks1 Hs1 Hdp) as (v1 & n1 & Hv1 & Hn1 & ->).
  destruct (round_canonical_form s2 w dp u n process ks2 Hs2 Hdp) as (v2 & n2 & Hv2 & Hn2 & ->).
  cbn [conflict_free] in Hcf.
  destruct (round_canonical_form canonical w dp u 0 process []
              ltac:(by split) Hdp) as (v0 & n0 & _ & _ & Hc).
  rewrite Hc in Hcf. clear Hc.
  destruct ((relations (map_to_list process)).*1) as [|k nd] eqn:E.
  { by rewrite Hv1, Hv2, Hks. }
  destruct (dp w u (k :: nd)) as [err|data]; [done|].
  destruct Hcf as [Hcons Hcf].
  pose proof (entered_failures s1 n process data Hs1) as Hf1.
  pose proof (entered_failures s2 n process data Hs2) as Hf2.
  pose proof (entered_failures canonical 0 process data ltac:(by split)) as Hf0.
  destruct (failures data (relations (map_to_list process))) as [|f fs] eqn:Ef.
  - apply Permutation_nil_r in Hf1, Hf2, Hf0. rewrite Hf1, Hf2. rewrite Hf0 in Hcf.
    pose proof (entered_offspring s1 n process data Hs1) as Ho1.
    pose proof (entered_offspring s2 n process data Hs2) as Ho2.
    pose proof (entered_offspring canonical 0 process data ltac:(by split)) as Ho0.
    rewrite (insert_all_perm _ _ ∅ Ho1), (insert_all_perm _ _ ∅ Ho2);
      [|by eapply consistent_perm..].
    rewrite (insert_all_perm _ _ ∅ Ho0) in Hcf by (by eapply consistent_perm).
    apply IH; [done|]. by rewrite Hv1, Hv2, Hks.
  - destruct (failures data (entered s1 _ _)) as [|[??]?];
      [by apply Permutation_nil_l in Hf1|].
    destruct (failures data (entered s2 _ _)) as [|[??]?];
      [by apply Permutation_nil_l in Hf2|]. done.
Qed.

Lemma distinct_offspring_sound fuel (w : World) dp u process :
  distinct_offspring fuel w dp u process = true → conflict_free fuel w dp u process.
Proof.
  revert process. induction fuel as [|fuel IH]; intros process; [done|].
  cbn [distinct_offspring conflict_free].
  destruct (dp w u _) as [err|data]; [done|].
  intros [Hnd H]%andb_prop. split.
  - apply consistent_NoDup. by apply bool_decide_eq_true in Hnd.
  - destruct (round _ _ _ _ _ _ _ _) as [| |process' ? ?]; [done..|]. by apply IH.
Qed.

(** C3, as the code has it. Two calls of [Update] in succession, against a
    data provider that answers the same both times whatever the order of
    the requested keys, leave the same keys with the same multiplicities,
    whatever the order in which the maps are enumerated, when in every round
    the relation keys agree on the description of each key they produce.
    (Without that agreement the description a key ends up with depends on
    the order of enumeration.) *)
Theorem Update_twice_same_keys fuel s1 s2 (w : World) b :
  valid_sched s1 → valid_sched s2 →
  order_blind (dataProvider b) w (uid b) →
  conflict_free fuel w (dataProvider b) (uid b) (seed body_keys (bodies b)) →
  (rounds (bodies b) ≤ fuel)%nat →
  ∃ b1 r1 calls1 b2 r2 calls2,
    Update description_keys body_keys fuel s1 w b = Some (b1, r1, calls1) ∧
    Update description_keys body_keys fuel s2 w b1 = Some (b2, r2, calls2) ∧
    Keys b2 ≡ₚ Keys b1 ∧ (r1 = None ↔ r2 = None).
Proof.
  intros Hs1 Hs2 Hdp Hcf Hfuel.
  destruct (Update_terminates fuel s1 w b Hs1 Hfuel) as [[[b1 r1] calls1] Hu].
  exists b1, r1, calls1. revert Hu. unfold Update.
  pose proof (resolve_order_free fuel s1 s2 w (dataProvider b) (uid b) 0
                (seed body_keys (bodies b)) [] [] [] [] Hs1 Hs2 Hdp Hcf ltac:(done)) as H.
  destruct (resolve description_keys fuel s1 _ _ _ _ _ _ _) as [[[k1|e1] c1]|]; [| |done].
  - intros [= <- <- <-]. cbn [dataProvider uid bodies set_keys].
    destruct (resolve description_keys fuel s2 _ _ _ _ _ _ _) as [[[k2|e2] c2]|]; [|done..].
    eexists _, _, _. split; [done|]. split; [done|]. split; [by symmetry | done].
  - intros [= <- <- <-]. cbn [dataProvider uid bodies set_keys].
    destruct (resolve description_keys fuel s2 _ _ _ _ _ _ _) as [[[k2|e2] c2]|]; [done| |done].
    eexists _, _, _. split; [done|]. split; [done|]. split; done.
Qed.
End OrderFacts.

(** ** Values of the wrong shape *)

Lemma failures_first data es k err rest :
  failures data es = (k, err) :: rest →
  ∃ before d after value,
    es = before ++ (k, d) :: after ∧ failures data before = [] ∧
    index data k = Some value ∧ children d value = inl err.
Proof.
  induction es as [|[k' d'] es IH]; [done|]. rewrite failures_cons.
  destruct (index data k') as [v|] eqn:Ev.
  - destruct (children d' v) as [e|l] eqn:Ec.
    + intros [= -> -> _]. by exists [], d', es, v.
    + intros (before & d & after & value & -> & Hb & Hv & Hc)%IH.
      exists ((k', d') :: before), d, after, value.
      split; [done|]. split; [|done]. by rewrite failures_cons, Ev, Ec.
  - intros (before & d & after & value & -> & Hb & Hv & Hc)%IH.
    exists ((k', d') :: before), d, after, value.
    split; [done|]. split; [|done]. by rewrite failures_cons, Ev.
Qed.

Section ShapeFacts.
Context {World : Type}.
Implicit Types (b : @Builder World body) (s : Sched description).

(** C6, as the code has it. When the loop over [processed] comes to a key
    whose fetched value has the wrong shape, [Update] returns a
    [ValueError] with that key, the type that was got and the type that was
    expected; and [Update] returns a [ValueError] in that case only. (The
    loop ends at the first entry that is rejected, so a value of the wrong
    shape the loop does not come to is not reported.) *)
Theorem wrong_shape_ValueError fuel s (w : World) b :
  valid_sched s →
  (∀ n key d value got expect,
     comes_to s w b n key d value → (n < fuel)%nat →
     wrong_shape d value = Some (got, expect) →
     ∃ cause calls,
       Update description_keys body_keys fuel s w b
         = Some (set_keys [] b, Some (ValueError key got expect cause), calls)) ∧
  (∀ b' err calls,
     Update description_keys body_keys fuel s w b = Some (b', Some err, calls) →
     is_ValueError err = true →
     ∃ n key d value got expect cause,
       comes_to s w b n key d value ∧ wrong_shape d value = Some (got, expect) ∧
       err = ValueError key got expect cause).
Proof.
  intros Hs. split.
  - intros n key d value got expect
      (process & ks & calls & data & before & after & Hr & Hdp & Hent & Hbefore & Hv) Hn Hw.
    apply wrong_shape_children in Hw as [field Hc].
    exists (json_UnmarshalTypeError got expect field),
      (calls ++ [(relations (visited s n process)).*1]).
    unfold Update. replace fuel with (n + S (fuel - S n))%nat by lia.
    rewrite (reaches_resolve _ _ _ _ _ _ _ _ _ Hr). cbn [resolve]. rewrite round_eq.
    destruct ((relations (visited s n process)).*1) as [|k nd] eqn:E.
    { exfalso. apply fmap_nil_inv in E. unfold entered in Hent. rewrite E in Hent.
      destruct Hs as [_ Hs]. specialize (Hs n (map_to_list (insert_all [] (∅ : gmap string description)))).
      rewrite Hent in Hs. cbn in Hs. rewrite map_to_list_empty in Hs.
      apply Permutation_nil_r in Hs. by destruct before. }
    rewrite Hdp, expand_children, Hent, failures_app, Hbefore, failures_cons, Hv, Hc.
    done.
  - intros b' err calls Hu Hve. unfold Update in Hu.
    destruct (resolve _ _ _ _ _ _ _ _ _ _) as [[[ks|e] cs]|] eqn:Hres; [done| |done].
    injection Hu as <- <- <-.
    apply (resolve_failed description_keys body_keys) in Hres
      as (n & process & ks & calls & needed & Hr & Hround); [|constructor].
    rewrite round_eq in Hround.
    destruct ((relations (visited s n process)).*1) as [|k nd] eqn:E; [done|].
    destruct (dataProvider b w (uid b) (k :: nd)) as [e'|data] eqn:Hdp.
    { injection Hround as <- _. done. }
    rewrite expand_children in Hround.
    destruct (failures data (entered s n process)) as [|[key cause] rest] eqn:Hf; [done|].
    injection Hround as <- _.
    apply failures_first in Hf as (before & d & after & value & Hent & Hb & Hv & Hc).
    apply children_error in Hc. unfold report in *.
    destruct (errors_As_UnmarshalTypeError cause) as [[[got expect] field]|]; [|congruence].
    exists n, key, d, value, got, expect, cause. split; [|done].
    exists process, ks, calls, data, before, after. by rewrite E.
Qed.
End ShapeFacts.

(** ** The scenarios *)

Lemma valid_canonical {Desc} : valid_sched (@canonical Desc).
Proof. by split. Qed.

Lemma valid_backwards {Desc} : valid_sched (@backwards Desc).
Proof. split; intros n l; cbn; apply reverse_Permutation. Qed.

Lemma list_to_map_insert_all {V} (l : list (string * V)) :
  (list_to_map l : gmap string V) = insert_all (reverse l) ∅.
Proof.
  induction l as [|[k v] l IH]; [done|].
  rewrite reverse_cons, insert_all_app. cbn. by rewrite IH.
Qed.

Lemma snapshot_order_blind store u : order_blind (snapshot store) tt u.
Proof.
  intros l l' Hl. unfold snapshot. f_equal. rewrite !list_to_map_insert_all.
  apply insert_all_perm.
  - by rewrite !reverse_Permutation, Hl.
  - intros k v1 v2 H1 H2. rewrite elem_of_reverse in H1, H2.
    apply list_elem_of_fmap in H1 as (k1 & [= -> ->] & _).
    apply list_elem_of_fmap in H2 as (k2 & [= -> ->] & _). done.
Qed.

Lemma Update_error_resets_witness :
  Keys (set_keys [] down_builder) = [] ∧
  bodies (set_keys [] down_builder) = bodies down_builder ∧
  ∀ fuel' s' w' b'' calls',
    update fuel' s' w' (set_keys [] down_builder) = Some (b'', None, calls') →
    newBuilder description_keys body_keys fuel' s' w'
      (dataProvider down_builder) (uid down_builder) (bodies down_builder) = Some (inr b'').
Proof.
  apply (Update_error_resets description_keys body_keys 3 canonical tt down_builder
           (set_keys [] down_builder)
           (fmt_Errorf "load needed keys" (errors_New "connection refused"))
           [["a/1/y_ids"; "a/1/x_ids"]]).
  vm_compute. reflexivity.
Defined.

Lemma expand_skips_invisible_witness :
  expand description_keys crossing_store
      ([("a/1/x_ids", relationListField "c" [("f", None)])]
       ++ ("b/9/z_ids", relationListField "c" [("f", None)])
       :: [("a/1/y_ids", relationListField "c" [("g", None)])]) ∅
    = expand description_keys crossing_store
        ([("a/1/x_ids", relationListField "c" [("f", None)])]
         ++ [("a/1/y_ids", relationListField "c" [("g", None)])]) ∅.
Proof.
  apply (expand_skips_invisible description_keys crossing_store).
  left. vm_compute. reflexivity.
Defined.

Lemma Update_keeps_top_level_witness :
  "motion/2/successor" ∈
    Keys (set_keys ["motion/1/title"; "motion/2/successor"; "motion/1/title"] successor_builder).
Proof.
  apply (Update_keeps_top_level 2 canonical tt successor_builder _ [["motion/2/successor"]]).
  - apply valid_canonical.
  - vm_compute. reflexivity.
  - exists successor, "motion/2",
      [("successor", Some (relationField "motion" [("title", None)]))],
      "successor", (Some (relationField "motion" [("title", None)])).
    split; [apply list_elem_of_here|].
    split; [apply list_elem_of_further, list_elem_of_here|].
    split; [apply list_elem_of_here | reflexivity].
Defined.

Lemma plain_names : plain names.
Proof.
  intros bd cid fields f d Hbd Hcf Hf. unfold names in Hbd.
  repeat match goal with
  | H : _ ∈ _ :: _ |- _ => apply elem_of_cons in H as [H|H]
  | H : _ ∈ [] |- _ => by apply elem_of_nil in H
  | H : (_, _) = (_, _) |- _ => injection H as ??
  | _ => progress subst
  end; done.
Qed.

Lemma Update_plain_witness :
  ∃ ks, update 1 backwards tt names_builder = Some (set_keys ks names_builder, None, [])
    ∧ NoDup ks ∧ ∀ k, k ∈ ks ↔ top_level (bodies names_builder) k.
Proof.
  apply (Update_plain 0 backwards tt names_builder).
  - apply valid_backwards.
  - apply plain_names.
Defined.

Lemma Update_keys_once_per_round_witness :
  ∃ g gens,
    Keys (set_keys ["motion/1/title"; "motion/2/successor"; "motion/1/title"] successor_builder)
      = concat (g :: gens) ∧
    Forall NoDup (g :: gens) ∧ (∀ k, k ∈ g ↔ top_level (bodies successor_builder) k) ∧
    length gens = length [["motion/2/successor"]].
Proof.
  apply (Update_keys_once_per_round 2 canonical tt successor_builder).
  - apply valid_canonical.
  - vm_compute. reflexivity.
Defined.

(** C4 fails on the motion that is also a successor: its title is a
    top-level key and is reached again through the relation of the other
    motion, and the key list holds it twice. *)
Lemma successor_title_twice :
  update 2 canonical tt successor_builder
    = Some (set_keys ["motion/1/title"; "motion/2/successor"; "motion/1/title"] successor_builder,
            None, [["motion/2/successor"]]) ∧
  ¬ NoDup
      (Keys (set_keys ["motion/1/title"; "motion/2/successor"; "motion/1/title"]
               successor_builder)).
Proof.
  split; [vm_compute; reflexivity|].
  cbn. intros H. apply NoDup_cons in H as [H _].
  apply H. apply list_elem_of_further, list_elem_of_here.
Qed.

Lemma Update_twice_same_keys_witness :
  ∃ b1 r1 calls1 b2 r2 calls2,
    update 2 canonical tt successor_builder = Some (b1, r1, calls1) ∧
    update 2 backwards tt b1 = Some (b2, r2, calls2) ∧
    Keys b2 ≡ₚ Keys b1 ∧ (r1 = None ↔ r2 = None).
Proof.
  apply (Update_twice_same_keys 2 canonical backwards tt successor_builder).
  - apply valid_canonical.
  - apply valid_backwards.
  - apply snapshot_order_blind.
  - apply distinct_offspring_sound. vm_compute. reflexivity.
  - vm_compute. lia.
Defined.

(** C3 fails on the crossing relation lists: the two lists of one round set
    different descriptions for [c/1/f], the one visited last wins, and two
    calls of [Update] that enumerate the map in different orders leave three
    keys and four keys. *)
Lemma crossing_order_matters :
  valid_sched (@canonical description) ∧ valid_sched (@backwards description) ∧
  order_blind (dataProvider crossing_builder) tt (uid crossing_builder) ∧
  update 3 canonical tt crossing_builder
    = Some (set_keys ["a/1/y_ids"; "a/1/x_ids"; "c/1/f"] crossing_builder, None,
            [["a/1/y_ids"; "a/1/x_ids"]]) ∧
  update 3 backwards tt (set_keys ["a/1/y_ids"; "a/1/x_ids"; "c/1/f"] crossing_builder)
    = Some (set_keys ["a/1/x_ids"; "a/1/y_ids"; "c/1/f"; "d/7/g"] crossing_builder, None,
            [["a/1/x_ids"; "a/1/y_ids"]; ["c/1/f"]]) ∧
  ¬ Keys (set_keys ["a/1/x_ids"; "a/1/y_ids"; "c/1/f"; "d/7/g"] crossing_builder)
      ≡ₚ Keys (set_keys ["a/1/y_ids"; "a/1/x_ids"; "c/1/f"] crossing_builder).
Proof.
  split; [apply valid_canonical|]. split; [apply valid_backwards|].
  split; [apply snapshot_order_blind|].
  split; [vm_compute; reflexivity|]. split; [vm_compute; reflexivity|].
  intros H. apply Permutation_length in H. discriminate H.
Qed.

Lemma wrong_shape_ValueError_witness :
  ∃ cause calls,
    update 3 canonical tt broken_builder
      = Some (set_keys [] broken_builder,
              Some (ValueError "a/1/y_ids" "number" Slice cause), calls).
Proof.
  destruct (wrong_shape_ValueError 3 canonical tt broken_builder valid_canonical) as [H _].
  apply (H 0%nat "a/1/y_ids"
           (relationListField "c" [("f", Some (relationListField "d" [("g", None)]))])
           (Valid (JNumber 43))).
  - exists (seed body_keys (bodies broken_builder)), [], [], broken_store, [],
      [("a/1/x_ids", relationListField "c" [("f", None)])].
    split; [apply reaches_first|].
    split; [vm_compute; reflexivity|]. split; [vm_compute; reflexivity|].
    split; reflexivity.
  - lia.
  - reflexivity.
Defined.

(** C6 fails on two values of the wrong shape in one round: both relation
    lists hold a number, and the [ValueError] that [Update] returns carries
    the key the loop comes to first, not the other one. *)
Lemma broken_reports_one :
  update 3 canonical tt broken_builder
    = Some (set_keys [] broken_builder,
            Some (ValueError "a/1/y_ids" "number" Slice
                    (json_UnmarshalTypeError "number" Slice "")),
            [["a/1/y_ids"; "a/1/x_ids"]]) ∧
  seed body_keys (bodies broken_builder) !! "a/1/x_ids"
    = Some (Some (relationListField "c" [("f", None)])) ∧
  snapshot broken_store tt 1 ["a/1/y_ids"; "a/1/x_ids"] = inr broken_store ∧
  index broken_store "a/1/x_ids" = Some (Valid (JNumber 42)) ∧
  wrong_shape (relationListField "c" [("f", None)]) (Valid (JNumber 42))
    = Some ("number", Slice) ∧
  ¬ ∃ got expect cause calls,
      update 3 canonical tt broken_builder
        = Some (set_keys [] broken_builder,
                Some (ValueError "a/1/x_ids" got expect cause), calls).
Proof.
  assert (update 3 canonical tt broken_builder
    = Some (set_keys [] broken_builder,
            Some (ValueError "a/1/y_ids" "number" Slice
                    (json_UnmarshalTypeError "number" Slice "")),
            [["a/1/y_ids"; "a/1/x_ids"]])) as Hu by (vm_compute; reflexivity).
  split; [exact Hu|]. split; [vm_compute; reflexivity|]. split; [vm_compute; reflexivity|].
  split; [reflexivity|]. split; [reflexivity|].
  intros (got & expect & cause & calls & H). rewrite Hu in H. discriminate H.
Qed.

Lemma first_Next_visible_witness :
  ∃ data,
    snapshot exist_store tt (conn_uid fresh_connection) (id (builder fresh_connection))
      = inr data ∧
    (∀ k v, k ∈ id (builder fresh_connection) → index data k = Some v →
       exist_delivery !! k = Some (Some v) ∧ last delivered_connection !! k = Some v) ∧
    (∀ k, k ∈ id (builder fresh_connection) → index data k = None →
       exist_delivery !! k = None ∧
       last delivered_connection !! k = last fresh_connection !! k) ∧
    (∀ k, k ∉ id (builder fresh_connection) →
       exist_delivery !! k = None ∧
       last delivered_connection !! k = last fresh_connection !! k).
Proof.
  apply (first_Next_visible id (snapshot exist_store) closed_topic tt fresh_connection
           exist_delivery delivered_connection).
  - reflexivity.
  - vm_compute. reflexivity.
Defined.

Lemma wrong_type_errors_witness :
  FromJSON description_keys body_keys body_UnmarshalJSON 1 canonical tt
      (Some (Valid (JNumber 5))) unreachable 0
    = Some (inl (JSONError (json_UnmarshalTypeError "number" Struct ""))) ∧
  ManyFromJSON description_keys body_keys body_UnmarshalJSON 1 canonical tt
      (Some (Valid (JArray [JNumber 5]))) unreachable 0
    = Some (inl (InvalidError "wrong type at field ``. Got number, expected object")).
Proof.
  apply (wrong_type_errors description_keys body_keys body_UnmarshalJSON 1 canonical tt
           unreachable 0 (JNumber 5) [] "number" Struct "").
  reflexivity.
Defined.

(** The example in the comment of [buildGenericKey]. *)
Example buildGenericKey_doc : buildGenericKey "motion/5" "title" = "motion/5/title".
Proof. reflexivity. Qed.

Example buildCollectionID_doc : buildCollectionID "motion" 5 = "motion/5".
Proof. reflexivity. Qed.

(** The request [{"user/1": {"name": null}}] observes the key [user/1/name]. *)
Example basic_request :
  match FromJSON description_keys body_keys body_UnmarshalJSON 1 canonical tt
          (Some (Valid (JObject [("user/1", JObject [("name", JNull)])])))
          (snapshot ∅) 1 with
  | Some (inr b) => Keys b
  | _ => []
  end = ["user/1/name"].
Proof. vm_compute. reflexivity. Qed.

(** A relation list is followed to the objects it names. *)
Example relation_list_request :
  match ManyFromJSON description_keys body_keys body_UnmarshalJSON 2 canonical tt
          (Some (Valid (JArray [JObject [("motion/5", JObject [("tag_ids",
             JObject [("type", JString "relation-list"); ("collection", JString "tag");
                      ("fields", JObject [("name", JNull)])])])]])))
          (snapshot {[ "motion/5/tag_ids" := Some (Valid (JArray [JNumber 1; JNumber 2])) ]}) 1 with
  | Some (inr b) => Keys b
  | _ => []
  end = ["motion/5/tag_ids"; "tag/1/name"; "tag/2/name"].
Proof. vm_compute. reflexivity. Qed.

(** * Further properties of the code *)

(** ** The calls and the errors of [Update] *)

Section UpdateFacts.
Context {World Desc body : Type}.
Variable desc_keys :
  Desc → string → document → gmap string (option Desc) → error + gmap string (option Desc).
Variable top_keys : body → gmap string (option Desc) → gmap string (option Desc).
Implicit Types (process : gmap string (option Desc)) (s : Sched Desc).
Implicit Types (dp : @DataProvider World) (b : @Builder World body).
Implicit Types (ks needed : list string) (calls : list (list string)).

Lemma expand_failed (data : Data) entries process err :
  expand desc_keys data entries process = inl err →
  ∃ key d value process' cause,
    (key, d) ∈ entries ∧ index data key = Some value ∧
    desc_keys d key value process' = inl cause ∧ err = report key cause.
Proof.
  revert process. induction entries as [|[k d] entries IH]; intros process; [done|].
  cbn [expand]. destruct (index data k) as [value|] eqn:Ev.
  - destruct (desc_keys d k value process) as [cause|process'] eqn:Ed.
    + intros [= <-]. exists k, d, value, process, cause. split; [left|done].
    + intros (key & d' & v & p & c & Hin & H)%IH. exists key, d', v, p, c. split; [by right|done].
  - intros (key & d' & v & p & c & Hin & H)%IH. exists key, d', v, p, c. split; [by right|done].
Qed.

Lemma expand_hidden (data : Data) entries process :
  (∀ k, index data k = None) → expand desc_keys data entries process = inr process.
Proof.
  intros Hh. induction entries as [|[k d] entries IH]; [done|].
  cbn [expand]. by rewrite Hh.
Qed.

Lemma needed_relations s n process :
  valid_sched s → (relations (visited s n process)).*1 ≡ₚ (relations (map_to_list process)).*1.
Proof. intros Hs. by rewrite (relations_perm _ _ (visited_perm s n process Hs)). Qed.

Lemma needed_NoDup s n process : valid_sched s → NoDup (relations (visited s n process)).*1.
Proof.
  intros Hs. eapply sublist_NoDup; [by apply (visited_NoDup s n process) | apply relations_fst_sublist].
Qed.

Lemma needed_visited s n process k :
  k ∈ (relations (visited s n process)).*1 → k ∈ (visited s n process).*1.
Proof. intros H. eapply elem_of_sublist; [exact H | apply relations_fst_sublist]. Qed.

Lemma entered_needed s n process key d :
  valid_sched s → (key, d) ∈ entered s n process → key ∈ (relations (visited s n process)).*1.
Proof.
  intros Hs Hin. rewrite (entered_perm s n process Hs) in Hin.
  rewrite (needed_relations s n process Hs). apply list_elem_of_fmap. by exists (key, d).
Qed.


Lemma resolve_failed_calls fuel s w b n process ks calls err calls' :
  reaches desc_keys top_keys s w b n process ks calls →
  resolve desc_keys fuel s w (dataProvider b) (uid b) n process ks calls
    = Some (Failed err, calls') →
  ∃ n' process' ks' calls0 needed,
    reaches desc_keys top_keys s w b n' process' ks' calls0 ∧
    round desc_keys s w (dataProvider b) (uid b) n' process' ks' = Abort err needed ∧
    calls' = calls0 ++ [needed].
Proof.
  revert n process ks calls. induction fuel as [|fuel IH]; intros n process ks calls Hr; [done|].
  cbn [resolve].
  destruct (round _ _ _ _ _ _ _ _) as [?|e needed|process' ks' needed] eqn:Hround; [done| |].
  - intros [= -> <-]. by exists n, process, ks, calls, needed.
  - apply IH. by econstructor.
Qed.

(** X1. An error of [Update] comes from its last call of the data provider:
    either the call failed, and the error wraps the provider's error, or the
    description of one of the requested keys rejected the value the call
    returned for it, and the error is what [Update] makes of the
    description's error. *)
Theorem Update_error_origin fuel s (w : World) b b' err calls :
  valid_sched s →
  Update desc_keys top_keys fuel s w b = Some (b', Some err, calls) →
  ∃ calls0 needed, calls = calls0 ++ [needed] ∧ needed ≠ [] ∧
    ((∃ cause, dataProvider b w (uid b) needed = inl cause ∧
               err = fmt_Errorf "load needed keys" cause) ∨
     (∃ data key d value process cause,
        dataProvider b w (uid b) needed = inr data ∧ key ∈ needed ∧
        index data key = Some value ∧
        desc_keys d key value process = inl cause ∧ err = report key cause)).
Proof.
  intros Hs Hu. unfold Update in Hu.
  destruct (resolve _ _ _ _ _ _ _ _ _ _) as [[[ks|e] cs]|] eqn:Hres; [done| |done].
  injection Hu as _ <- <-.
  apply (resolve_failed_calls _ _ _ b) in Hres
    as (n & process & ks & calls0 & needed & Hr & Hround & ->); [|constructor].
  exists calls0, needed. split; [done|]. rewrite round_eq in Hround.
  destruct ((relations (visited s n process)).*1) as [|k nd] eqn:E; [done|].
  destruct (dataProvider b w (uid b) (k :: nd)) as [cause|data] eqn:Hdp.
  - injection Hround as <- <-. split; [done|]. left. by exists cause.
  - destruct (expand _ _ _ _) as [e'|process'] eqn:He; [|done].
    injection Hround as <- <-. split; [done|]. right.
    apply expand_failed in He as (key & d & value & p & cause & Hin & Hv & Hd & ->).
    exists data, key, d, value, p, cause. split; [done|]. split; [|done].
    rewrite <- E. by eapply entered_needed.
Qed.

Lemma resolve_calls_keys fuel s w dp u n process ks calls ks' calls' :
  valid_sched s →
  resolve desc_keys fuel s w dp u n process ks calls = Some (Finished ks', calls') →
  ks `prefix_of` ks' ∧
  ∃ more, calls' = calls ++ more ∧
    Forall (λ nd, nd ≠ [] ∧ NoDup nd ∧ ∀ k, k ∈ nd → k ∈ ks') more.
Proof.
  intros Hs. revert n process ks calls.
  induction fuel as [|fuel IH]; intros n process ks calls; [done|].
  cbn [resolve]. rewrite round_eq.
  destruct ((relations (visited s n process)).*1) as [|k nd] eqn:E.
  - intros [= <- <-]. split; [by apply prefix_app_r|]. exists []. by rewrite app_nil_r.
  - destruct (dp w u (k :: nd)) as [?|data]; [done|].
    destruct (expand _ _ _ _) as [?|process']; [done|].
    intros (Hpre & more & -> & Hall)%IH. split.
    { etrans; [|exact Hpre]. by apply prefix_app_r. }
    exists ((k :: nd) :: more). split; [by rewrite <- app_assoc|].
    constructor; [|done]. split; [done|]. split.
    + rewrite <- E. by apply needed_NoDup.
    + intros k' Hk'. rewrite <- E in Hk'. apply needed_visited in Hk'.
      destruct Hpre as [tail ->]. apply elem_of_app. left. apply elem_of_app. by right.
Qed.

(** X2. After a successful [Update] every list of keys the data provider was
    called with is non-empty and free of repetitions, and each key the
    provider was asked for is in the key list. *)
Theorem Update_calls_in_keys fuel s (w : World) b b' calls :
  valid_sched s →
  Update desc_keys top_keys fuel s w b = Some (b', None, calls) →
  Forall (λ needed, needed ≠ [] ∧ NoDup needed ∧ ∀ k, k ∈ needed → k ∈ Keys b') calls.
Proof.
  intros Hs H%Update_finished.
  apply resolve_calls_keys in H as (_ & more & -> & Hall); done.
Qed.


(** X4. When the data provider returns no value for any key (all values
    absent or nil), [Update] succeeds after at most one call, and the key
    list holds the top-level keys, each once, and nothing else. *)
Theorem Update_all_hidden fuel s (w : World) b :
  valid_sched s →
  (∀ needed, ∃ data, dataProvider b w (uid b) needed = inr data ∧ ∀ k, index data k = None) →
  ∃ ks calls,
    Update desc_keys top_keys (S (S fuel)) s w b = Some (set_keys ks b, None, calls) ∧
    ks ≡ₚ (map_to_list (seed top_keys (bodies b))).*1 ∧ (length calls ≤ 1)%nat.
Proof.
  intros Hs Hdp. unfold Update. cbn [resolve]. rewrite round_eq.
  pose proof (visited_perm s 0 (seed top_keys (bodies b)) Hs) as Hp.
  destruct ((relations (visited s 0 (seed top_keys (bodies b)))).*1) as [|k nd] eqn:E.
  - eexists _, _. split; [done|]. split; [by rewrite Hp | cbn; lia].
  - destruct (Hdp (k :: nd)) as (data & -> & Hh).
    rewrite expand_hidden by done. rewrite round_eq.
    assert (visited s 1 (∅ : gmap string (option Desc)) = []) as ->.
    { apply Permutation_nil_r. rewrite (visited_perm s 1 ∅ Hs). by rewrite map_to_list_empty. }
    cbn. eexists _, _. split; [done|]. split; [by rewrite app_nil_r, Hp | cbn; lia].
Qed.
End UpdateFacts.

(** ** Keys *)

Lemma string_app_assoc (a b c : string) : (a +:+ b) +:+ c = a +:+ b +:+ c.
Proof.
  induction a as [|x a IH]; [done|].
  change (String x ((a +:+ b) +:+ c) = String x (a +:+ b +:+ c)). by rewrite IH.
Qed.

Lemma cut_String c rest :
  cut (String c rest) =
    if decide (String c EmptyString = keySep) then Some (EmptyString, rest)
    else prod_map (String c) id <$> cut rest.
Proof. done. Qed.

(** A string without separator, followed by a separator, is cut there. *)
Lemma cut_app c rest : cut c = None → cut (c +:+ keySep +:+ rest) = Some (c, rest).
Proof.
  induction c as [|x c IH]; [done|]. rewrite cut_String.
  change (String x c +:+ keySep +:+ rest) with (String x (c +:+ keySep +:+ rest)).
  rewrite cut_String. case_decide; [done|].
  destruct (cut c) as [[??]|] eqn:E; [done|]. intros _. by rewrite IH.
Qed.

Lemma cut_pretty_N_go x s : cut s = None → cut (pretty_N_go x s) = None.
Proof.
  revert s. induction (N.lt_wf_0 x) as [x _ IH]; intros s Hs.
  assert (x = 0 ∨ 0 < x)%N as [->|?] by lia.
  - by rewrite pretty_N_go_0.
  - rewrite pretty_N_go_step by done. apply IH; [by apply N.div_lt|].
    rewrite cut_String, Hs. unfold pretty_N_char. by repeat case_match.
Qed.

Lemma cut_pretty_Z (id : Z) : cut (pretty id) = None.
Proof.
  assert (∀ p : positive, cut (pretty p) = None) as Hp.
  { intros p. unfold pretty, pretty_positive, pretty, pretty_N.
    case_decide; [done|]. by apply cut_pretty_N_go. }
  destruct id as [|p|p]; [done|apply Hp|].
  change (pretty (Z.neg p)) with ("-" +:+ pretty p).
  generalize (Hp p). generalize (pretty p). intros r Hr.
  assert (∀ x, "-" +:+ r = String x r →
    cut (String x r) = (if decide (String x EmptyString = keySep) then Some (EmptyString, r)
                        else prod_map (String x) id <$> cut r)) as Hx by (intros; apply cut_String).
  specialize (Hx _ eq_refl). rewrite Hr in Hx. exact Hx.
Qed.

(** X5. Keys do not collide: for collections without a separator, the key
    built from collection, id and field determines all three. *)
Theorem key_injective collection id field collection' id' field' :
  cut collection = None → cut collection' = None →
  buildGenericKey (buildCollectionID collection id) field
    = buildGenericKey (buildCollectionID collection' id') field' →
  collection = collection' ∧ id = id' ∧ field = field'.
Proof.
  intros Hc Hc'. unfold buildGenericKey, buildCollectionID.
  rewrite !string_app_assoc. intros H.
  pose proof (f_equal cut H) as Hcut. rewrite !cut_app in Hcut by done.
  injection Hcut as -> Hrest.
  pose proof (f_equal cut Hrest) as Hcut. rewrite !cut_app in Hcut by apply cut_pretty_Z.
  injection Hcut as Hid ->. by apply (inj pretty) in Hid as ->.
Qed.

(** ** The constructors *)

Section ConstructorFacts.
Context {World Desc body : Type}.
Variable desc_keys :
  Desc → string → document → gmap string (option Desc) → error + gmap string (option Desc).
Variable top_keys : body → gmap string (option Desc) → gmap string (option Desc).
Variable unmarshal_body : json → error + body.
Implicit Types (dp : @DataProvider World) (s : Sched Desc).

Lemma newBuilder_error fuel s (w : World) dp u bodys err :
  newBuilder desc_keys top_keys fuel s w dp u bodys = Some (inl err) →
  ∃ b' e calls,
    Update desc_keys top_keys fuel s w (MkBuilder dp u bodys []) = Some (b', Some e, calls) ∧
    err = fmt_Errorf "build keys for the first time" e.
Proof.
  unfold newBuilder. destruct (Update _ _ _ _ _ _) as [[[b' [e|]] calls]|]; [|done..].
  intros [= <-]. by exists b', e, calls.
Qed.

(** X6. The errors of [ManyFromJSON]: [InvalidError] for no data, for an
    [InvalidError] of the decoder and for a value of the wrong JSON type;
    [JSONError] for a syntax error; any other error of the decoder wrapped
    with "decode keysrequest"; and the error of the first [Update] wrapped
    twice, so that [errors.As] finds a [ValueError] in it exactly when the
    error of [Update] holds one. The error is never an unwrapped
    [ValueError]. *)
Theorem ManyFromJSON_errors fuel s (w : World) r dp u err :
  ManyFromJSON desc_keys top_keys unmarshal_body fuel s w r dp u = Some (inl err) →
  is_ValueError err = false ∧
  ((∃ msg, err = InvalidError msg) ∨
   (∃ msg, Decode_bodies unmarshal_body r = inl (json_SyntaxError msg) ∧
           err = JSONError (json_SyntaxError msg)) ∨
   (∃ e, Decode_bodies unmarshal_body r = inl e ∧ err = fmt_Errorf "decode keysrequest" e) ∨
   (∃ bs b' e calls,
      Decode_bodies unmarshal_body r = inr bs ∧
      Update desc_keys top_keys fuel s w (MkBuilder dp u bs []) = Some (b', Some e, calls) ∧
      err = fmt_Errorf "build keys" (fmt_Errorf "build keys for the first time" e) ∧
      errors_As_ValueError err = errors_As_ValueError e)).
Proof.
  unfold ManyFromJSON. destruct (Decode_bodies unmarshal_body r) as [e|bs] eqn:Hd.
  - destruct e; intros [= <-]; (split; [done|]); eauto 10.
  - destruct bs as [|b bs]; [intros [= <-]; split; eauto|].
    destruct (newBuilder _ _ _ _ _ _ _ _) as [[e|kb]|] eqn:Hn; [|done..].
    intros [= <-]. apply newBuilder_error in Hn as (b' & e' & calls & Hu & ->).
    split; [done|]. do 3 right. by exists (b :: bs), b', e', calls.
Qed.

(** X7. A request with one body builds the same builder, or fails with the
    same error, whether it is given to [FromJSON] as it is or to
    [ManyFromJSON] as a list of one element. *)
Theorem ManyFromJSON_singleton fuel s (w : World) j b dp u :
  unmarshal_body j = inr b →
  ManyFromJSON desc_keys top_keys unmarshal_body fuel s w (Some (Valid (JArray [j]))) dp u
    = FromJSON desc_keys top_keys unmarshal_body fuel s w (Some (Valid j)) dp u.
Proof.
  intros H. unfold ManyFromJSON, FromJSON, Decode_bodies, Decode_body.
  cbn [unmarshal_bodies]. by rewrite H.
Qed.
End ConstructorFacts.

(** ** The mock restricter *)

(** A suffix ends with the last character of the string. *)
Lemma HasSuffix_last s suffix :
  HasSuffix s suffix = true → suffix ≠ EmptyString →
  String.get (String.length s - 1) s = String.get (String.length suffix - 1) suffix.
Proof.
  unfold HasSuffix. intros [Hlen Heq]%andb_prop Hne.
  apply Nat.leb_le in Hlen. apply String.eqb_eq in Heq.
  assert (0 < String.length suffix)%nat as Hpos by (destruct suffix; [done | cbn; lia]).
  rewrite <- Heq at 2.
  rewrite String.substring_correct1 by lia. f_equal. lia.
Qed.

Lemma HasSuffix_ids_not_id key : HasSuffix key "_ids" = true → HasSuffix key "_id" = false.
Proof.
  intros H1. destruct (HasSuffix key "_id") eqn:H2; [|done].
  apply HasSuffix_last in H1; [|done]. apply HasSuffix_last in H2; [|done].
  rewrite H1 in H2. discriminate H2.
Qed.

(** One turn of the loop of [Restrict]. *)
Lemma Restrict_loop_cons r key rest out :
  Restrict_loop r (key :: rest) out =
    if decide (mock_throws r key) then inl (errors_New "Restricter got an error")
    else Restrict_loop r rest (<[key := mock_value r key]> out).
Proof.
  cbn [Restrict_loop]. unfold mock_throws, mock_value.
  destruct (restricter_Data r !! key) as [v|].
  - rewrite decide_False; [done|]. by intros [? _].
  - destruct (HasPrefix key "error").
    + by rewrite decide_True.
    + rewrite decide_False by (by intros [_ ?]).
      by destruct (HasSuffix key "_id"), (HasSuffix key "_ids").
Qed.

Lemma Restrict_loop_success r keys out0 out :
  Restrict_loop r keys out0 = inr out →
  (∀ k, k ∈ keys → ¬ mock_throws r k) ∧
  ∀ k, out !! k = if decide (k ∈ keys) then Some (mock_value r k) else out0 !! k.
Proof.
  revert out0. induction keys as [|key rest IH]; intros out0.
  - intros [= <-]. split; [by intros k ?%elem_of_nil|]. intros k. by rewrite decide_False by apply not_elem_of_nil.
  - rewrite Restrict_loop_cons. case_decide as Ht; [done|].
    intros [Hno Hout]%IH. split.
    + intros k [->|?]%elem_of_cons; auto.
    + intros k. rewrite Hout. destruct (decide (k ∈ rest)) as [Hin|Hin].
      * by rewrite decide_True by (by right).
      * destruct (decide (k = key)) as [->|Hne].
        -- rewrite decide_True by left. by rewrite lookup_insert_eq.
        -- rewrite decide_False by (intros [?|?]%elem_of_cons; done).
           by rewrite lookup_insert_ne.
Qed.

Lemma Restrict_loop_failure r keys out0 err :
  Restrict_loop r keys out0 = inl err →
  err = errors_New "Restricter got an error" ∧ ∃ k, k ∈ keys ∧ mock_throws r k.
Proof.
  revert out0. induction keys as [|key rest IH]; intros out0; [done|].
  rewrite Restrict_loop_cons. case_decide as Ht.
  - intros [= <-]. split; [done|]. exists key. split; [left | done].
  - intros [-> (k & Hin & Hk)]%IH. split; [done|]. exists k. split; [by right | done].
Qed.

(** X8. When [Restrict] succeeds, the returned map holds the requested keys
    and no other key; a key has the value [Data] has for it, and a key that
    is not in [Data] the default for its name. *)
Theorem Restrict_success r uid keys out :
  Restrict r uid keys = inr out →
  ∀ k, out !! k = if decide (k ∈ keys) then Some (mock_value r k) else None.
Proof.
  intros [_ H]%Restrict_loop_success k. by rewrite H, lookup_empty.
Qed.

(** X9. [Restrict] fails exactly when one of the requested keys starts with
    "error" and is not in [Data]; the error is always the same. A key that
    is in [Data] never makes it fail, whatever its name. *)
Theorem Restrict_fails_iff r uid keys err :
  Restrict r uid keys = inl err ↔
    err = errors_New "Restricter got an error" ∧
    ∃ k, k ∈ keys ∧ restricter_Data r !! k = None ∧ HasPrefix k "error" = true.
Proof.
  split.
  - intros (-> & k & Hin & Hk)%Restrict_loop_failure. split; [done|]. by exists k.
  - intros (-> & k & Hin & Hk). unfold Restrict.
    destruct (Restrict_loop r keys ∅) as [e|out] eqn:E.
    + by apply Restrict_loop_failure in E as [-> _].
    + apply Restrict_loop_success in E as [Hno _]. by destruct (Hno k Hin).
Qed.

(** X10. The case for "_id" does not take the keys that end with "_ids": a
    requested key that is not in [Data] and ends with "_ids" gets "[1,2]". *)
Theorem Restrict_ids r uid keys out key :
  Restrict r uid keys = inr out →
  key ∈ keys → restricter_Data r !! key = None → HasSuffix key "_ids" = true →
  out !! key = Some "[1,2]".
Proof.
  intros [_ H]%Restrict_loop_success Hin Hd Hs.
  rewrite H, decide_True by done. unfold mock_value.
  by rewrite Hd, (HasSuffix_ids_not_id _ Hs), Hs.
Qed.

(** X11. The answer of [Restrict] depends on the set of the requested keys
    only, not on their order or on repetitions. *)
Theorem Restrict_order_blind r uid keys keys' :
  (∀ k, k ∈ keys ↔ k ∈ keys') →
  Restrict r uid keys = Restrict r uid keys'.
Proof.
  intros Hk. unfold Restrict.
  destruct (Restrict_loop r keys ∅) as [e|out] eqn:E, (Restrict_loop r keys' ∅) as [e'|out'] eqn:E'.
  - apply Restrict_loop_failure in E as [-> _], E' as [-> _]. done.
  - apply Restrict_loop_failure in E as [_ (k & Hin & Ht)].
    apply Restrict_loop_success in E' as [Hno _]. destruct (Hno k); [by apply Hk | done].
  - apply Restrict_loop_failure in E' as [_ (k & Hin & Ht)].
    apply Restrict_loop_success in E as [Hno _]. destruct (Hno k); [by apply Hk | done].
  - apply Restrict_loop_success in E as [_ H], E' as [_ H']. f_equal. apply map_eq. intros k.
    rewrite H, H'. destruct (decide (k ∈ keys)) as [Hin|Hin].
    + by rewrite decide_True by (by apply Hk).
    + by rewrite decide_False by (by rewrite <- Hk).
Qed.

(** ** The command *)

(** X12. [getEnv] returns the empty string only when the default is empty
    and the variable is not set or set to the empty string: a variable set to
    the empty string counts as not set. *)
Theorem getEnv_empty_iff (environ : gmap string string) env devaultValue :
  getEnv environ env devaultValue = "" ↔
    devaultValue = "" ∧ (environ !! env = None ∨ environ !! env = Some "").
Proof.
  unfold getEnv, Getenv. destruct (environ !! env) as [v|]; cbn.
  - destruct (decide (v = "")) as [->|Hv].
    + split; [intros ->; split; [done | by right] | by intros [-> _]].
    + split; [done|]. intros [_ [?|[= ?]]]; done.
  - rewrite decide_True by done.
    split; [intros ->; split; [done | by left] | by intros [-> _]].
Qed.

Section CommandFacts.
Variable environ : gmap string string.
Context {Certificate faker : Type}.
Variable GenerateCert : error + Certificate.
Variable LoadX509KeyPair : string → string → error + Certificate.
Variable path_Join : string → string → string.
Variable Stat : string → stat.
Variable newFaker : faker.
Variable faker_URL : faker → string.
Variable TestConn : string → option error.

(** X13. With a certificate directory set, [getCert] returns a certificate
    exactly when neither [autoupdate.pem] nor [autoupdate-key.pem] is
    reported missing in it and the pair loads; it is the certificate of
    these two files. The files [cert.pem] and [key.pem] are never loaded:
    when a special file is missing, the second check looks at the special
    file again and [getCert] fails. *)
Theorem getCert_special_only certDir cert :
  getEnv environ "CERT_DIR" "" = certDir → certDir ≠ "" →
  getCert environ GenerateCert LoadX509KeyPair path_Join Stat = inr cert ↔
    IsNotExist (Stat (path_Join certDir specialCertName)) = false ∧
    IsNotExist (Stat (path_Join certDir specialKeyName)) = false ∧
    LoadX509KeyPair (path_Join certDir specialCertName) (path_Join certDir specialKeyName)
      = inr cert.
Proof.
  intros Hdir Hne. unfold getCert. rewrite Hdir, decide_False by done.
  destruct (IsNotExist (Stat (path_Join certDir specialCertName))).
  { split; [done | by intros [? _]]. }
  destruct (IsNotExist (Stat (path_Join certDir specialKeyName))).
  { split; [done | by intros (_ & ? & _)]. }
  destruct (LoadX509KeyPair _ _) as [e|c].
  - split; [done | by intros (_ & _ & ?)].
  - split; [by intros [= ->] | by intros (_ & _ & [= ->])].
Qed.

Lemma buildReceiver_fails_iff (f : option faker) :
  (∃ err, buildReceiver environ TestConn f = inl err) ↔
    (getEnv environ "MESSAGING" "fake" ≠ "redis" ∧
     getEnv environ "MESSAGING" "fake" ≠ "fake") ∨
    (getEnv environ "MESSAGING" "fake" = "redis" ∧
     getEnv environ "REDIS_TEST_CONN" "true" = "true" ∧
     is_Some (TestConn (getEnv environ "MESSAGE_BUS_HOST" "localhost" +:+ ":"
                        +:+ getEnv environ "MESSAGE_BUS_PORT" "6379"))).
Proof.
  unfold buildReceiver.
  destruct (decide (getEnv environ "MESSAGING" "fake" = "redis")) as [Hm|Hm].
  - destruct (decide (getEnv environ "REDIS_TEST_CONN" "true" = "true")) as [Ht|Ht].
    + destruct (TestConn _) as [e|] eqn:Hc.
      * split; [intros _; right; eauto | eauto].
      * split; [by intros [? ?]|]. intros [[? _]|(_ & _ & Hs)]; [done | by destruct Hs].
    + split; [by intros [? ?]|]. intros [[? _]|(_ & ? & _)]; done.
  - destruct (decide (getEnv environ "MESSAGING" "fake" = "fake")) as [Hm'|Hm'].
    + split; [by intros [? ?]|]. intros [[_ ?]|(? & _)]; done.
    + split; [by left | eauto].
Qed.

(** X14. [buildDatastore] fails exactly when the datastore is neither "fake"
    nor "service", or the messaging service is neither "redis" nor "fake", or
    redis is chosen, the connection test is not switched off and it fails. *)
Theorem buildDatastore_fails_iff :
  (∃ err, buildDatastore environ newFaker faker_URL TestConn = inl err) ↔
    (getEnv environ "DATASTORE" "fake" ≠ "fake" ∧
     getEnv environ "DATASTORE" "fake" ≠ "service") ∨
    (getEnv environ "MESSAGING" "fake" ≠ "redis" ∧
     getEnv environ "MESSAGING" "fake" ≠ "fake") ∨
    (getEnv environ "MESSAGING" "fake" = "redis" ∧
     getEnv environ "REDIS_TEST_CONN" "true" = "true" ∧
     is_Some (TestConn (getEnv environ "MESSAGE_BUS_HOST" "localhost" +:+ ":"
                        +:+ getEnv environ "MESSAGE_BUS_PORT" "6379"))).
Proof.
  assert (∀ (f : option faker) url,
    (∃ err, match buildReceiver environ TestConn f with
            | inl err => inl (fmt_Errorf "build receiver" err)
            | inr receiver => inr (MkDatastore url receiver)
            end = inl err) ↔ ∃ err, buildReceiver environ TestConn f = inl err) as Hr.
  { intros f url. destruct (buildReceiver environ TestConn f) as [e|rc].
    - split; eauto.
    - split; by intros [? ?]. }
  unfold buildDatastore.
  destruct (decide (getEnv environ "DATASTORE" "fake" = "fake")) as [Hd|Hd].
  - rewrite Hr, buildReceiver_fails_iff. split; [by right|]. by intros [[? _]|?].
  - destruct (decide (getEnv environ "DATASTORE" "fake" = "service")) as [Hd'|Hd'].
    + rewrite Hr, buildReceiver_fails_iff. split; [by right|]. by intros [[_ ?]|?].
    + split; [by left | eauto].
Qed.

(** X15. What [buildDatastore] hands to the datastore as receiver: with
    redis, the service for the address of the message bus; with fake
    messaging, the faker whose URL the datastore reads from when the
    datastore is fake, and a nil faker when the datastore is the service. *)
Theorem buildDatastore_receiver ds :
  buildDatastore environ newFaker faker_URL TestConn = inr ds →
  match datastore_receiver ds with
  | redis_Service address =>
      getEnv environ "MESSAGING" "fake" = "redis" ∧
      address = getEnv environ "MESSAGE_BUS_HOST" "localhost" +:+ ":"
                +:+ getEnv environ "MESSAGE_BUS_PORT" "6379"
  | faker_Updater (Some f) =>
      getEnv environ "MESSAGING" "fake" = "fake" ∧
      getEnv environ "DATASTORE" "fake" = "fake" ∧
      f = newFaker ∧ datastore_url ds = faker_URL newFaker
  | faker_Updater None =>
      getEnv environ "MESSAGING" "fake" = "fake" ∧
      getEnv environ "DATASTORE" "fake" = "service" ∧
      datastore_url ds =
        getEnv environ "DATASTORE_READER_PROTOCOL" "http" +:+ "://"
        +:+ getEnv environ "DATASTORE_READER_HOST" "localhost" +:+ ":"
        +:+ getEnv environ "DATASTORE_READER_PORT" "9010"
  end.
Proof.
  unfold buildDatastore, buildReceiver.
  destruct (decide (getEnv environ "DATASTORE" "fake" = "fake")) as [Hd|Hd];
    [|destruct (decide (getEnv environ "DATASTORE" "fake" = "service")) as [Hd'|Hd']];
    [| |done].
  all: destruct (decide (getEnv environ "MESSAGING" "fake" = "redis")) as [Hm|Hm];
    [destruct (decide (getEnv environ "REDIS_TEST_CONN" "true" = "true")) as [Ht|Ht];
       [destruct (TestConn _) as [e|]|]
    |destruct (decide (getEnv environ "MESSAGING" "fake" = "fake")) as [Hm'|Hm']].
  all: intros [= <-]; cbn; done.
Qed.
End CommandFacts.

(** ** Scenarios of the further properties *)

Lemma snapshot_empty_hidden u needed :
  ∃ data, snapshot ∅ tt u needed = inr data ∧ ∀ k, index data k = None.
Proof.
  eexists. split; [done|]. intros k. unfold index.
  destruct (list_to_map _ !! k) as [v|] eqn:E; [|done].
  apply elem_of_list_to_map_2, list_elem_of_fmap in E as (k' & [= -> ->] & _).
  unfold index. by rewrite lookup_empty.
Qed.

Lemma Update_error_origin_witness :
  ∃ calls0 needed, [["a/1/y_ids"; "a/1/x_ids"]] = calls0 ++ [needed] ∧ needed ≠ [] ∧
    ((∃ cause, dataProvider down_builder tt (uid down_builder) needed = inl cause ∧
               fmt_Errorf "load needed keys" (errors_New "connection refused")
                 = fmt_Errorf "load needed keys" cause) ∨
     (∃ data key d value process cause,
        dataProvider down_builder tt (uid down_builder) needed = inr data ∧ key ∈ needed ∧
        index data key = Some value ∧
        description_keys d key value process = inl cause ∧
        fmt_Errorf "load needed keys" (errors_New "connection refused") = report key cause)).
Proof.
  apply (Update_error_origin description_keys body_keys 3 canonical tt down_builder
           (set_keys [] down_builder)).
  - apply valid_canonical.
  - vm_compute. reflexivity.
Defined.

Lemma Update_calls_in_keys_witness :
  Forall (λ needed, needed ≠ [] ∧ NoDup needed ∧
            ∀ k, k ∈ needed →
              k ∈ Keys (set_keys ["motion/1/title"; "motion/2/successor"; "motion/1/title"]
                          successor_builder))
    [["motion/2/successor"]].
Proof.
  apply (Update_calls_in_keys description_keys body_keys 2 canonical tt successor_builder).
  - apply valid_canonical.
  - vm_compute. reflexivity.
Defined.


Lemma Update_all_hidden_witness :
  ∃ ks calls,
    update 2 backwards tt hidden_builder = Some (set_keys ks hidden_builder, None, calls) ∧
    ks ≡ₚ (map_to_list (seed body_keys (bodies hidden_builder))).*1 ∧ (length calls ≤ 1)%nat.
Proof.
  apply (Update_all_hidden description_keys body_keys 0 backwards tt hidden_builder).
  - apply valid_backwards.
  - intros needed. apply snapshot_empty_hidden.
Defined.

Lemma key_injective_witness : "motion" = "motion" ∧ 5 = 5 ∧ "title" = "title".
Proof. apply (key_injective "motion" 5 "title" "motion" 5 "title"); reflexivity. Defined.

Lemma ManyFromJSON_errors_witness :
  is_ValueError
    (fmt_Errorf "build keys" (fmt_Errorf "build keys for the first time"
       (ValueError "a/1/x_ids" "number" Slice (json_UnmarshalTypeError "number" Slice ""))))
    = false ∧
  ((∃ msg, fmt_Errorf "build keys" (fmt_Errorf "build keys for the first time"
       (ValueError "a/1/x_ids" "number" Slice (json_UnmarshalTypeError "number" Slice "")))
     = InvalidError msg) ∨
   (∃ msg, Decode_bodies body_UnmarshalJSON (Some (Valid (JArray [tags_request])))
             = inl (json_SyntaxError msg) ∧
           fmt_Errorf "build keys" (fmt_Errorf "build keys for the first time"
             (ValueError "a/1/x_ids" "number" Slice (json_UnmarshalTypeError "number" Slice "")))
           = JSONError (json_SyntaxError msg)) ∨
   (∃ e, Decode_bodies body_UnmarshalJSON (Some (Valid (JArray [tags_request]))) = inl e ∧
         fmt_Errorf "build keys" (fmt_Errorf "build keys for the first time"
           (ValueError "a/1/x_ids" "number" Slice (json_UnmarshalTypeError "number" Slice "")))
         = fmt_Errorf "decode keysrequest" e) ∨
   (∃ bs b' e calls,
      Decode_bodies body_UnmarshalJSON (Some (Valid (JArray [tags_request]))) = inr bs ∧
      update 3 canonical tt (MkBuilder (snapshot broken_store) 1 bs [])
        = Some (b', Some e, calls) ∧
      fmt_Errorf "build keys" (fmt_Errorf "build keys for the first time"
        (ValueError "a/1/x_ids" "number" Slice (json_UnmarshalTypeError "number" Slice "")))
      = fmt_Errorf "build keys" (fmt_Errorf "build keys for the first time" e) ∧
      errors_As_ValueError
        (fmt_Errorf "build keys" (fmt_Errorf "build keys for the first time"
          (ValueError "a/1/x_ids" "number" Slice (json_UnmarshalTypeError "number" Slice ""))))
      = errors_As_ValueError e)).
Proof.
  apply (ManyFromJSON_errors description_keys body_keys body_UnmarshalJSON 3 canonical tt
           (Some (Valid (JArray [tags_request]))) (snapshot broken_store) 1).
  vm_compute. reflexivity.
Defined.

Lemma ManyFromJSON_singleton_witness :
  ManyFromJSON description_keys body_keys body_UnmarshalJSON 3 canonical tt
      (Some (Valid (JArray [tags_request]))) (snapshot crossing_store) 1
    = FromJSON description_keys body_keys body_UnmarshalJSON 3 canonical tt
        (Some (Valid tags_request)) (snapshot crossing_store) 1.
Proof.
  apply (ManyFromJSON_singleton description_keys body_keys body_UnmarshalJSON 3 canonical tt
           tags_request [("a/1", [("x_ids", Some (relationListField "c" [("f", None)]))])]).
  vm_compute. reflexivity.
Defined.

Lemma Restrict_success_witness :
  Restrict named_restricter 1 ["user/1/name"; "motion/1/tag_ids"] = inr named_answer ∧
  named_answer !! "user/1/name" =
    (if decide ("user/1/name" ∈ ["user/1/name"; "motion/1/tag_ids"])
     then Some (mock_value named_restricter "user/1/name") else None) ∧
  named_answer !! "user/2/name" =
    (if decide ("user/2/name" ∈ ["user/1/name"; "motion/1/tag_ids"])
     then Some (mock_value named_restricter "user/2/name") else None).
Proof.
  assert (Restrict named_restricter 1 ["user/1/name"; "motion/1/tag_ids"] = inr named_answer)
    as H by (vm_compute; reflexivity).
  split; [exact H|].
  split; apply (Restrict_success named_restricter 1 ["user/1/name"; "motion/1/tag_ids"]
                  named_answer H).
Defined.

Lemma Restrict_ids_witness : named_answer !! "motion/1/tag_ids" = Some "[1,2]".
Proof.
  apply (Restrict_ids named_restricter 1 ["user/1/name"; "motion/1/tag_ids"] named_answer).
  - vm_compute. reflexivity.
  - apply list_elem_of_further, list_elem_of_here.
  - vm_compute. reflexivity.
  - vm_compute. reflexivity.
Defined.

Lemma Restrict_order_blind_witness :
  Restrict named_restricter 1 ["user/1/name"; "motion/1/tag_ids"]
    = Restrict named_restricter 1 ["motion/1/tag_ids"; "user/1/name"; "motion/1/tag_ids"].
Proof.
  apply (Restrict_order_blind named_restricter 1).
  intros k. rewrite !elem_of_cons, !elem_of_nil. tauto.
Defined.

Lemma getCert_special_only_witness :
  getCert certs_environ (inr "generated") load_names join_slash general_only
    = inr "/certs/cert.pem+/certs/key.pem" ↔
    IsNotExist (general_only (join_slash "/certs" specialCertName)) = false ∧
    IsNotExist (general_only (join_slash "/certs" specialKeyName)) = false ∧
    load_names (join_slash "/certs" specialCertName) (join_slash "/certs" specialKeyName)
      = inr "/certs/cert.pem+/certs/key.pem".
Proof.
  apply (getCert_special_only certs_environ (inr "generated") load_names join_slash
           general_only "/certs" "/certs/cert.pem+/certs/key.pem").
  - vm_compute. reflexivity.
  - discriminate.
Defined.

Lemma buildDatastore_receiver_witness :
  match datastore_receiver (MkDatastore "http://127.0.0.1:8080" (faker_Updater (Some tt))) with
  | redis_Service address =>
      getEnv ∅ "MESSAGING" "fake" = "redis" ∧
      address = getEnv ∅ "MESSAGE_BUS_HOST" "localhost" +:+ ":"
                +:+ getEnv ∅ "MESSAGE_BUS_PORT" "6379"
  | faker_Updater (Some f) =>
      getEnv ∅ "MESSAGING" "fake" = "fake" ∧
      getEnv ∅ "DATASTORE" "fake" = "fake" ∧
      f = tt ∧
      datastore_url (MkDatastore "http://127.0.0.1:8080" (faker_Updater (Some tt)))
        = test_URL tt
  | faker_Updater None =>
      getEnv ∅ "MESSAGING" "fake" = "fake" ∧
      getEnv ∅ "DATASTORE" "fake" = "service" ∧
      datastore_url (MkDatastore "http://127.0.0.1:8080" (faker_Updater (Some tt))) =
        getEnv ∅ "DATASTORE_READER_PROTOCOL" "http" +:+ "://"
        +:+ getEnv ∅ "DATASTORE_READER_HOST" "localhost" +:+ ":"
        +:+ getEnv ∅ "DATASTORE_READER_PORT" "9010"
  end.
Proof.
  apply (buildDatastore_receiver ∅ tt test_URL redis_up
           (MkDatastore "http://127.0.0.1:8080" (faker_Updater (Some tt)))).
  vm_compute. reflexivity.
Defined.
